(** * FreshView: the [Video] and [Extractor] classes over a model of the DOM

    The development embeds [src/js/video.js] (class [Video]) and the
    extractor script (class [Extractor], the [extract*Videos] functions)
    as Rocq functions over an explicit DOM store.

    - A page is a tree of nodes; an element object is a reference into that
      tree, so two [Video]s wrapping the same element alias the same style.
    - A method that can raise a [TypeError] returns a [completion].
    - [Logger] calls only write to the console and are left out. *)

From Stdlib Require Import ZArith Lia Ascii.
From stdpp Require Import base tactics option list strings pretty.

Open Scope Z_scope.
Open Scope nat_scope.

(** ** JavaScript values and completions *)

(** The values held by the memoised fields of a [Video]. *)
Inductive value :=
  | VUndefined
  | VString (s : string)
  | VBoolean (b : bool).

Global Instance value_eq_dec : EqDecision value.
Proof. solve_decision. Defined.

(** [ToBoolean]: [undefined], the empty string and [false] are falsy. *)
Definition truthy (x : value) : bool :=
  match x with
  | VUndefined => false
  | VString s => negb (String.eqb s "")
  | VBoolean b => b
  end.

(** [a && b] is [a] when [a] is falsy and [b] otherwise. *)
Definition js_and (a b : value) : value := if truthy a then b else a.

Definition of_option (o : option string) : value :=
  match o with Some s => VString s | None => VUndefined end.

(** Normal completion with a result, or an abrupt one: the only exception
    the two classes can raise is the [TypeError] of a property read on
    [null] or [undefined]. *)
Inductive completion (A : Type) :=
  | Normal (a : A)
  | TypeError.
Arguments Normal {A} a.
Arguments TypeError {A}.

Definition bind {A B} (m : completion A) (k : A → completion B) : completion B :=
  match m with
  | Normal a => k a
  | TypeError => TypeError
  end.

Notation "'let*' x ':=' m 'in' k" := (bind m (fun x => k))
  (at level 10, x pattern, m at level 100, k at level 200).

Definition returns {A} (m : completion A) : Prop := ∃ a, m = Normal a.

(** ** Strings: [slice], the video-id pattern, [parseInt] *)

(** [s.slice(0, -1)]: everything but the last character. *)
Definition slice_0_m1 (s : string) : string :=
  String.substring 0 (String.length s - 1) s.

Definition in_range (lo hi : nat) (c : ascii) : bool :=
  let n := nat_of_ascii c in (lo <=? n) && (n <=? hi).

Definition is_digit (c : ascii) : bool := in_range 48 57 c.

(** The character class [[a-zA-Z0-9_\-]]. *)
Definition is_id_char (c : ascii) : bool :=
  in_range 97 122 c || in_range 65 90 c || is_digit c
  || Ascii.eqb c "_" || Ascii.eqb c "-".

(** The greedy group [([a-zA-Z0-9_\-]+)] read at the head of [s]. *)
Fixpoint id_run (s : string) : string :=
  match s with
  | String c rest => if is_id_char c then String c (id_run rest) else EmptyString
  | EmptyString => EmptyString
  end.

(** An attempt of [/v=([a-zA-Z0-9_\-]+)/] at the head of [s]. *)
Definition match_here (s : string) : option string :=
  match s with
  | String "v" (String "=" rest) =>
      match id_run rest with
      | EmptyString => None
      | g => Some g
      end
  | _ => None
  end.

(** [href.match(/v=([a-zA-Z0-9_\-]+)/)]: the leftmost match; the result is
    [matches[1]], or [None] when [match] returns [null]. *)
Fixpoint match_video_id (href : string) : option string :=
  match match_here href with
  | Some g => Some g
  | None =>
      match href with
      | String _ rest => match_video_id rest
      | EmptyString => None
      end
  end.

(** White space skipped by [parseInt] (tab, LF, VT, FF, CR, space). *)
Definition is_space (c : ascii) : bool :=
  in_range 9 13 c || Ascii.eqb c " ".

Fixpoint skip_space (s : string) : string :=
  match s with
  | String c rest => if is_space c then skip_space rest else s
  | EmptyString => EmptyString
  end.

Definition digit_value (c : ascii) : N := N.of_nat (nat_of_ascii c - 48).

(** The value of the longest run of decimal digits at the head of [s]. *)
Fixpoint parse_digits (s : string) (acc : N) : N :=
  match s with
  | String c rest =>
      if is_digit c then parse_digits rest (acc * 10 + digit_value c)%N else acc
  | EmptyString => acc
  end.

Definition starts_with_digit (s : string) : bool :=
  match s with
  | String c _ => is_digit c
  | EmptyString => false
  end.

(** [parseInt(s, 10)]; [None] is [NaN]. *)
Definition parseInt (s : string) : option Z :=
  let s1 := skip_space s in
  let '(negative, s2) :=
    match s1 with
    | String c rest =>
        if Ascii.eqb c "-" then (true, rest)
        else if Ascii.eqb c "+" then (false, rest)
        else (false, s1)
    | EmptyString => (false, s1)
    end in
  if starts_with_digit s2 then
    let n := Z.of_N (parse_digits s2 0) in
    Some (if negative then (- n)%Z else n)
  else None.

(** [progress >= threshold]: every comparison with [NaN] is false. *)
Definition js_ge (progress : option Z) (threshold : Z) : bool :=
  match progress with
  | Some p => (threshold <=? p)%Z
  | None => false
  end.

(** ** The DOM store *)

(** The inline style of an element: the two properties the code touches. *)
Record Style := { style_display : string; style_width : string }.

(** What the code reads of an element: its tag (the lower-case local name),
    the [id] property (the empty string when the attribute is absent), the
    class list, the other attributes and the inline style. *)
Record ElementData := {
  tagName : string;
  elem_id : string;
  classList : list string;
  attributes : list (string * string);
  style : Style
}.

(** Nodes that have a parent: elements and text nodes. A comment node,
    which counts as a sibling and brings no text, is a text node without
    data here. *)
Unset Elimination Schemes.
Inductive node :=
  | Element (e : ElementData) (childNodes : list node)
  | Text (data : string).
Set Elimination Schemes.

(** A tree of nodes is rooted either in a [Document] node (also standing for
    a shadow root: a node without an [id] property whose [parentNode] is
    [null]) or in a node that is attached to nothing. *)
Inductive dom :=
  | Document (childNodes : list node)
  | Detached (top : node).

(** A node object is a reference into the store: the child indices from the
    node up to the root, innermost first. [[]] is the root itself, whose
    [parentNode] is [null]; the [parentNode] of [k :: up] is [up]. *)
Definition ref := list nat.

Inductive target :=
  | TDocument (kids : list node)
  | TNode (n : node).

Definition root_of (d : dom) : target :=
  match d with
  | Document kids => TDocument kids
  | Detached n => TNode n
  end.

Definition children (t : target) : list node :=
  match t with
  | TDocument kids => kids
  | TNode (Element _ kids) => kids
  | TNode (Text _) => []
  end.

(** The node a reference denotes, if any. *)
Fixpoint resolve (d : dom) (r : ref) : option target :=
  match r with
  | [] => Some (root_of d)
  | k :: up =>
      match resolve d up with
      | Some t => TNode <$> children t !! k
      | None => None
      end
  end.

Definition element_at (d : dom) (r : ref) : option ElementData :=
  match resolve d r with
  | Some (TNode (Element e _)) => Some e
  | _ => None
  end.

(** The nodes before the node at [r] under the same parent, in document
    order. *)
Definition preceding_siblings (d : dom) (r : ref) : list node :=
  match r with
  | [] => []
  | k :: up =>
      match resolve d up with
      | Some t => take k (children t)
      | None => []
      end
  end.

(** The nodes reached from the node at [r] by [previousSibling], then
    [previousSibling] of that, and so on until [null]: its preceding
    siblings, the nearest first. *)
Definition previousSibling_chain (d : dom) (r : ref) : list node :=
  reverse (preceding_siblings d r).

(** [node.id]: a string on an element, [undefined] on any other node. *)
Definition id_of (t : target) : value :=
  match t with
  | TNode (Element e _) => VString (elem_id e)
  | _ => VUndefined
  end.

(** [element.getAttribute(name)]; [None] is [null]. *)
Definition getAttribute (e : ElementData) (name : string) : option string :=
  snd <$> find (λ kv, String.eqb (fst kv) name) (attributes e).

(** *** Writing the inline style *)

Definition set_display (s : string) (e : ElementData) : ElementData :=
  {| tagName := tagName e; elem_id := elem_id e; classList := classList e;
     attributes := attributes e;
     style := {| style_display := s; style_width := style_width (style e) |} |}.

(** Apply [f] to the element found by following the indices [p] downward
    from [n]; nothing changes when the path leaves the tree. *)
Fixpoint alter_node (f : ElementData → ElementData) (p : list nat) (n : node) : node :=
  match n with
  | Text _ => n
  | Element e kids =>
      match p with
      | [] => Element (f e) kids
      | i :: p' => Element e (alter (alter_node f p') i kids)
      end
  end.

Definition alter_dom (f : ElementData → ElementData) (r : ref) (d : dom) : dom :=
  match d with
  | Detached n => Detached (alter_node f (rev r) n)
  | Document kids =>
      match rev r with
      | [] => d
      | i :: p => Document (alter (alter_node f p) i kids)
      end
  end.

(** [element.style.display = s]: a [TypeError] when the object has no
    [style] (a document or a text node). *)
Definition write_display (d : dom) (r : ref) (s : string) : completion dom :=
  match element_at d r with
  | Some _ => Normal (alter_dom (set_display s) r d)
  | None => TypeError
  end.

(** [element.style.display] *)
Definition read_display (d : dom) (r : ref) : completion string :=
  match element_at d r with
  | Some e => Normal (style_display (style e))
  | None => TypeError
  end.

(** ** Selectors and queries *)

(** A compound selector: [tag#id.class1.class2[attr]:not([attr'])]. *)
Record compound := {
  sel_tag : option string;
  sel_id : option string;
  sel_classes : list string;
  sel_attrs : list string;
  sel_not_attrs : list string
}.

(** The complex selectors the code uses: [":scope c"] (a descendant of the
    element the query is run on) and a bare compound [c]. *)
Inductive selector :=
  | Scope (c : compound)
  | Plain (c : compound).

Definition compound_of (s : selector) : compound :=
  match s with Scope c => c | Plain c => c end.

Definition opt_matches (want : option string) (have : string) : bool :=
  match want with
  | Some w => String.eqb w have
  | None => true
  end.

Definition mem (x : string) (l : list string) : bool := existsb (String.eqb x) l.

Definition has_attribute (e : ElementData) (name : string) : bool :=
  match getAttribute e name with Some _ => true | None => false end.

Definition matches_compound (e : ElementData) (c : compound) : bool :=
  opt_matches (sel_tag c) (tagName e)
  && opt_matches (sel_id c) (elem_id e)
  && forallb (λ cl, mem cl (classList e)) (sel_classes c)
  && forallb (has_attribute e) (sel_attrs c)
  && forallb (λ a, negb (has_attribute e a)) (sel_not_attrs c).

(** Every candidate of a query is a proper descendant of the element the
    query is run on, so [:scope] followed by the descendant combinator
    holds for each of them. *)
Definition matches (e : ElementData) (s : selector) : bool :=
  matches_compound e (compound_of s).

(** A selector list ["s1, s2, ..."] matches what any of its members does. *)
Definition matches_any (sels : list selector) (e : ElementData) : bool :=
  existsb (matches e) sels.

(** The elements of the subtree of [n], which sits at [r], in document
    order (a node before its children, children left to right). *)
Fixpoint subtree (r : ref) (n : node) : list (ref * ElementData) :=
  match n with
  | Text _ => []
  | Element e kids =>
      (r, e) ::
      (fix forest (i : nat) (ks : list node) : list (ref * ElementData) :=
         match ks with
         | [] => []
         | k :: ks' => subtree (i :: r) k ++ forest (S i) ks'
         end) 0 kids
  end.

(** The same for the children [ks] of the node at [r], the first of which
    has index [i]. *)
Fixpoint forest (r : ref) (i : nat) (ks : list node) : list (ref * ElementData) :=
  match ks with
  | [] => []
  | k :: ks' => subtree (i :: r) k ++ forest r (S i) ks'
  end.

(** The descendants of the element at [r]; a [TypeError] when [r] is not an
    element. *)
Definition descendants (d : dom) (r : ref) : completion (list (ref * ElementData)) :=
  match resolve d r with
  | Some (TNode (Element _ kids)) => Normal (forest r 0 kids)
  | _ => TypeError
  end.

(** [element.querySelector(sels.join(", "))]: the first descendant, in
    document order, that matches the selector list; [None] is [null]. *)
Definition querySelector (d : dom) (r : ref) (sels : list selector)
    : completion (option ref) :=
  let* ds := descendants d r in
  Normal ((λ hit, fst (snd hit)) <$> list_find (λ x, matches_any sels (snd x)) ds).

(** [Array.from(element.querySelectorAll(sels.join(", ")))] *)
Definition querySelectorAll (d : dom) (r : ref) (sels : list selector)
    : completion (list ref) :=
  let* ds := descendants d r in
  Normal (fst <$> filter (λ x, matches_any sels (snd x)) ds).

(** ** The [Video] class *)

(** The fields set by the constructor. [element] is a reference to the
    wrapped element. *)
Record Video := {
  element : ref;
  display : string;
  id : value;
  title : value;
  viewed : value
}.

Definition set_id (x : value) (v : Video) : Video :=
  {| element := element v; display := display v; id := x;
     title := title v; viewed := viewed v |}.

Definition set_viewed (x : value) (v : Video) : Video :=
  {| element := element v; display := display v; id := id v;
     title := title v; viewed := x |}.

(** [new Video(element)] *)
Definition new_Video (d : dom) (el : ref) : completion Video :=
  let* shown := read_display d el in
  Normal {| element := el; display := shown; id := VUndefined;
            title := VUndefined; viewed := VUndefined |}.

Definition anchor (ident : option string) (classes : list string) : selector :=
  Scope {| sel_tag := Some "a"; sel_id := ident; sel_classes := classes;
           sel_attrs := []; sel_not_attrs := [] |}.

(** The selector list of [deriveURL], in source order. *)
Definition url_selectors : list selector := [
  anchor (Some "video-title") ["yt-simple-endpoint"; "style-scope"; "ytd-grid-video-renderer"];
  anchor (Some "video-title-link") ["yt-simple-endpoint"; "style-scope"; "ytd-rich-grid-media"];
  anchor None ["yt-simple-endpoint"; "style-scope"; "ytd-playlist-video-renderer"];
  anchor None ["yt-simple-endpoint"; "style-scope"; "ytd-playlist-panel-video-renderer"];
  anchor None ["yt-lockup-metadata-view-model-wiz__title"];
  anchor None ["yt-simple-endpoint"; "style-scope"; "ytd-compact-video-renderer"];
  anchor (Some "video-title") ["yt-simple-endpoint"; "style-scope"; "ytd-video-renderer"];
  anchor None ["yt-lockup-view-model__title"];
  anchor None ["yt-lockup-view-model__content-image"]
].

(** The tail of [deriveURL], from the hyperlink that was found:
    [href.match(regex)] raises a [TypeError] when the anchor has no [href]
    attribute ([getAttribute] returns [null]). *)
Definition url_of_hyperlink (d : dom) (hyperlink : option ref) : completion (option string) :=
  match hyperlink with
  | None => Normal None
  | Some a =>
      match element_at d a with
      | None => TypeError
      | Some e =>
          match getAttribute e "href" with
          | None => TypeError
          | Some href => Normal (match_video_id href)
          end
      end
  end.

(** [deriveURL()]; [None] is [undefined]. *)
Definition deriveURL (d : dom) (v : Video) : completion (option string) :=
  let* hyperlink := querySelector d (element v) url_selectors in
  url_of_hyperlink d hyperlink.

(** The inner loop of [derivePath]: one increment for each node of the
    [previousSibling] chain, [sib] being its head. *)
Fixpoint count_siblings (chain : list node) (index : nat) : nat :=
  match chain with
  | [] => index
  | _ :: chain' => count_siblings chain' (S index)
  end.

Definition sibling_index (d : dom) (node : ref) : nat :=
  count_siblings (previousSibling_chain d node) 0.

(** The outer loop of [derivePath]. [node.id] is read first: on a document
    it is [undefined] and the loop ends; on [null], the [parentNode] of a
    root, reading it is a [TypeError]. *)
Fixpoint derivePath_loop (d : dom) (node : ref) (path : string) : completion string :=
  match resolve d node with
  | None => TypeError
  | Some t =>
      match id_of t with
      | VUndefined => Normal path
      | _ =>
          let index := sibling_index d node in
          let path' := "/" +:+ pretty index +:+ path in
          match node with
          | [] => TypeError
          | _ :: parent => derivePath_loop d parent path'
          end
      end
  end.

Definition derivePath (d : dom) (v : Video) : completion string :=
  derivePath_loop d (element v) "/".

(** [path + url] for a string [path]. *)
Definition js_concat (path : string) (url : option string) : string :=
  path +:+ match url with Some u => u | None => "undefined" end.

(** The two assignments of [fetchID] that follow the derivations. *)
Definition legal_id (url : option string) (path : string) : value :=
  let legal := js_and (of_option url) (VString path) in
  if truthy legal then VString (js_concat path url) else VUndefined.

Definition fetchID (d : dom) (v : Video) : completion (Video * value) :=
  let* url := deriveURL d v in
  let* path := derivePath d v in
  let v' := set_id (legal_id url path) v in
  Normal (v', id v').

(** [this.id || this.fetchID()] *)
Definition getID (d : dom) (v : Video) : completion (Video * value) :=
  if truthy (id v) then Normal (v, id v) else fetchID d v.

Definition progress_div (ident : option string) (classes : list string) : selector :=
  Plain {| sel_tag := Some "div"; sel_id := ident; sel_classes := classes;
           sel_attrs := []; sel_not_attrs := [] |}.

Definition bar_selectors : list selector := [
  progress_div None ["ytThumbnailOverlayProgressBarHostWatchedProgressBarSegment"];
  progress_div (Some "progress") ["style-scope"; "ytd-thumbnail-overlay-resume-playback-renderer"]
].

(** [getViewed(threshold)] *)
Definition getViewed (d : dom) (v : Video) (threshold : Z) : completion (Video * value) :=
  let* bar := querySelector d (element v) bar_selectors in
  match bar with
  | None => Normal (v, VUndefined)
  | Some b =>
      match element_at d b with
      | None => TypeError
      | Some e =>
          let width := slice_0_m1 (style_width (style e)) in
          let progress := parseInt width in
          let v' := set_viewed (VBoolean (js_ge progress threshold)) v in
          Normal (v', viewed v')
      end
  end.

Definition hide (d : dom) (v : Video) : completion dom :=
  write_display d (element v) "none".

Definition show (d : dom) (v : Video) : completion dom :=
  write_display d (element v) (display v).

(** ** The extractor script *)

Fixpoint mapM {A B} (f : A → completion B) (l : list A) : completion (list B) :=
  match l with
  | [] => Normal []
  | x :: l' =>
      let* y := f x in
      let* ys := mapM f l' in
      Normal (y :: ys)
  end.

(** [extract(element, ...selectors)]: one [querySelectorAll] per selector,
    each prefixed with [":scope "], the results concatenated. *)
Definition extract (d : dom) (el : ref) (selectors : list compound) : completion (list ref) :=
  let* found := mapM (λ c, querySelectorAll d el [Scope c]) selectors in
  Normal (concat found).

Definition renderer (tag : string) (classes attrs not_attrs : list string) : compound :=
  {| sel_tag := Some tag; sel_id := None; sel_classes := classes;
     sel_attrs := attrs; sel_not_attrs := not_attrs |}.

Definition extractExploreVideos (d : dom) (el : ref) : completion (list ref) :=
  extract d el [
    renderer "ytd-video-renderer" ["style-scope"; "ytd-expanded-shelf-contents-renderer"] [] []
  ].

Definition extractGridVideos (d : dom) (el : ref) : completion (list ref) :=
  extract d el [
    renderer "ytd-grid-video-renderer" ["style-scope"; "yt-horizontal-list-renderer"] [] [];
    renderer "ytd-grid-video-renderer" ["style-scope"; "ytd-grid-renderer"] [] []
  ].

Definition extractHistoryVideos (d : dom) (el : ref) : completion (list ref) :=
  extract d el [
    renderer "ytd-video-renderer" ["style-scope"; "ytd-item-section-renderer"] ["is-history"] []
  ].

Definition extractHomeVideos (d : dom) (el : ref) : completion (list ref) :=
  extract d el [
    renderer "yt-lockup-view-model" ["ytd-rich-item-renderer"; "lockup"] [] [];
    renderer "ytd-rich-item-renderer" ["style-scope"; "ytd-rich-shelf-renderer"] [] []
  ].

Definition extractPlaylistVideos (d : dom) (el : ref) : completion (list ref) :=
  extract d el [
    renderer "ytd-playlist-video-renderer" ["style-scope"; "ytd-playlist-video-list-renderer"] [] [];
    renderer "ytd-playlist-panel-video-renderer" ["style-scope"; "ytd-playlist-panel-renderer"] [] []
  ].

Definition extractRecommendedVideos (d : dom) (el : ref) : completion (list ref) :=
  extract d el [
    renderer "yt-lockup-view-model" ["ytd-item-section-renderer"; "lockup"] [] []
  ].

Definition extractSearchVideos (d : dom) (el : ref) : completion (list ref) :=
  extract d el [
    renderer "ytd-video-renderer" ["style-scope"; "ytd-vertical-list-renderer"] [] [];
    renderer "ytd-video-renderer" ["style-scope"; "ytd-item-section-renderer"] [] ["is-history"]
  ].

(** ** The [Extractor] class *)

(** A function object is known by its reference; [Set] compares members by
    reference and iterates in insertion order. *)
Definition fnref := nat.

Definition set_add (f : fnref) (s : list fnref) : list fnref :=
  if decide (f ∈ s) then s else s ++ [f].

Definition set_delete (f : fnref) (s : list fnref) : list fnref :=
  filter (λ g, g ≠ f) s.

Module Extractor.

Record t := { subextractors : list fnref }.

(** [new Extractor()] *)
Definition new : t := {| subextractors := [] |}.

Definition insert (f : fnref) (x : t) : t :=
  {| subextractors := set_add f (subextractors x) |}.

Definition remove (f : fnref) (x : t) : t :=
  {| subextractors := set_delete f (subextractors x) |}.

Section Extract.
(** The function objects of the page: what each reference does when it
    is called on an element. *)
Variable funs : fnref → dom → ref → completion (list ref).

(** [videos.filter(video => video.getViewed(threshold))]: the call
    updates the video that is kept. *)
Fixpoint keep_viewed (d : dom) (threshold : Z) (videos : list Video)
    : completion (list Video) :=
  match videos with
  | [] => Normal []
  | video :: rest =>
      let* (video', seen) := getViewed d video threshold in
      let* rest' := keep_viewed d threshold rest in
      Normal (if truthy seen then video' :: rest' else rest')
  end.

(** The elements every registered subextractor finds, in one array. *)
Definition elements_of (x : t) (d : dom) (el : ref) : completion (list ref) :=
  let* found := mapM (λ f, funs f d el) (subextractors x) in
  Normal (concat found).

Definition extract (x : t) (d : dom) (el : ref) (threshold : Z)
    : completion (list Video) :=
  let* elements := elements_of x d el in
  let* videos := mapM (new_Video d) elements in
  keep_viewed d threshold videos.
End Extract.

End Extractor.

(** ** Auxiliary notions used to state the properties *)

(** The string [/i1/i2/.../in] followed by [path]. *)
Definition levels_onto (indices : list nat) (path : string) : string :=
  foldr (λ i s, "/" +:+ pretty i +:+ s) path indices.

(** [/i1/i2/.../in/], and ["/"] for no index at all. *)
Definition path_string (indices : list nat) : string := levels_onto indices "/".

(** The node at [r] and its ancestors below the root, outermost first. *)
Fixpoint levels (r : ref) : list ref :=
  match r with
  | [] => []
  | _ :: up => levels up ++ [r]
  end.

Definition is_text (t : target) : bool :=
  match t with
  | TNode (Text _) => true
  | _ => false
  end.

(** The tree is rooted in a document. *)
Definition in_document (d : dom) : Prop := ∃ kids, d = Document kids.

(** The path as the specification words it: an index is taken only at
    the levels whose element has no [id] attribute. *)
Fixpoint unidentified_levels (d : dom) (node : ref) : list nat :=
  match node with
  | [] => []
  | _ :: up =>
      unidentified_levels d up ++
      match element_at d node with
      | Some e =>
          if String.eqb (elem_id e) "" then [length (preceding_siblings d node)] else []
      | None => []
      end
  end.

Definition derivePath_unidentified (d : dom) (v : Video) : string :=
  path_string (unidentified_levels d (element v)).

(** *** A sample page *)

Definition tag (name ident : string) (classes : list string)
    (attrs : list (string * string)) (shown width : string) : ElementData :=
  {| tagName := name; elem_id := ident; classList := classes; attributes := attrs;
     style := {| style_display := shown; style_width := width |} |}.

(** A home-page entry: the thumbnail link, which holds the progress bar,
    comes before the title link. *)
Definition lockup (shown : string) (thumb_href title_href : string)
    (overlay : list node) : node :=
  Element (tag "yt-lockup-view-model" "" ["ytd-rich-item-renderer"; "lockup"] [] shown "") [
    Element (tag "a" "" ["yt-lockup-view-model__content-image"] [("href", thumb_href)] "" "")
      overlay;
    Element (tag "a" "" ["yt-lockup-view-model__title"] [("href", title_href)] "" "") [
      Text "A title"
    ]
  ].

Definition progress_bar (width : string) : node :=
  Element (tag "div" "progress"
             ["style-scope"; "ytd-thumbnail-overlay-resume-playback-renderer"] [] "" width) [].

Definition page_of (entries : list node) : dom :=
  Document [
    Element (tag "html" "" [] [] "" "") [
      Element (tag "head" "" [] [] "" "") [];
      Text " ";
      Element (tag "body" "main" [] [] "" "") entries
    ]
  ].

(** Two entries: the first watched to 80%, the second never started. *)
Definition home_page : dom :=
  page_of [
    lockup "block" "/watch?v=AAA111" "/watch?v=BBB222&t=5s" [progress_bar "80%"];
    lockup "" "/shorts/xyz" "/shorts/xyz" []
  ].

(** The same page after the progress bar of the first entry is gone. *)
Definition home_page_reset : dom :=
  page_of [
    lockup "block" "/watch?v=AAA111" "/watch?v=BBB222&t=5s" [];
    lockup "" "/shorts/xyz" "/shorts/xyz" []
  ].

Definition body_ref : ref := [2; 0].
Definition first_entry : ref := [0; 2; 0].
Definition second_entry : ref := [1; 2; 0].

Definition video_of (el : ref) (shown : string) : Video :=
  {| element := el; display := shown; id := VUndefined;
     title := VUndefined; viewed := VUndefined |}.

(** *** The hyperlink as the specification words it *)

(** The first element, in document order, that matches the selector [s]. *)
Definition first_of_selector (s : selector) (ds : list (ref * ElementData)) : option ref :=
  (λ hit, fst (snd hit)) <$> list_find (λ x, matches (snd x) s) ds.

(** The selectors are tried one after the other; the first that has a
    match gives the element. *)
Fixpoint by_priority (sels : list selector) (ds : list (ref * ElementData)) : option ref :=
  match sels with
  | [] => None
  | s :: rest =>
      match first_of_selector s ds with
      | Some a => Some a
      | None => by_priority rest ds
      end
  end.

Definition querySelector_by_priority (d : dom) (r : ref) (sels : list selector)
    : completion (option ref) :=
  let* ds := descendants d r in
  Normal (by_priority sels ds).

Definition deriveURL_by_priority (d : dom) (v : Video) : completion (option string) :=
  let* hyperlink := querySelector_by_priority d (element v) url_selectors in
  url_of_hyperlink d hyperlink.

(** *** The subextractors of the script as function objects *)

Definition builtin (f : fnref) : dom → ref → completion (list ref) :=
  match f with
  | 0 => extractExploreVideos
  | 1 => extractGridVideos
  | 2 => extractHistoryVideos
  | 3 => extractHomeVideos
  | 4 => extractPlaylistVideos
  | 5 => extractRecommendedVideos
  | _ => extractSearchVideos
  end.

(** How many times [f] is a member of the registry. *)
Definition occurrences (f : fnref) (x : Extractor.t) : nat :=
  length (filter (λ g, g = f) (Extractor.subextractors x)).

(** *** Induction and navigation in the tree *)

(** Induction on a node with the property available for every child. *)
Fixpoint node_ind (P : node → Prop)
    (HText : ∀ s, P (Text s))
    (HElement : ∀ e kids, Forall P kids → P (Element e kids))
    (n : node) : P n :=
  match n with
  | Text s => HText s
  | Element e kids =>
      HElement e kids
        ((fix all (ks : list node) : Forall P ks :=
            match ks with
            | [] => @List.Forall_nil node P
            | k :: ks' =>
                @List.Forall_cons node P k ks' (node_ind P HText HElement k) (all ks')
            end) kids)
  end.

(** Following child indices downward, outermost first. *)
Fixpoint descend (t : target) (p : list nat) : option target :=
  match p with
  | [] => Some t
  | i :: p' =>
      match children t !! i with
      | Some n => descend (TNode n) p'
      | None => None
      end
  end.

Definition element_below (t : target) (p : list nat) : option ElementData :=
  match descend t p with
  | Some (TNode (Element e _)) => Some e
  | _ => None
  end.

(** A page with one entry whose progress bar has the given width. *)
Definition entry_page (width : string) : dom :=
  page_of [lockup "block" "/watch?v=AAA111" "/watch?v=AAA111" [progress_bar width]].

Definition bar_ref : ref := [0; 0; 0; 2; 0].

(** An entry that holds a search-layout title link before a grid-layout
    title link: the first and the seventh selectors of [deriveURL]. *)
Definition mixed_entry : node :=
  Element (tag "ytd-video-renderer" "" ["style-scope"; "ytd-item-section-renderer"] [] "" "") [
    Element (tag "a" "video-title" ["yt-simple-endpoint"; "style-scope"; "ytd-video-renderer"]
               [("href", "/watch?v=SEARCH7")] "" "") [];
    Element (tag "a" "video-title" ["yt-simple-endpoint"; "style-scope"; "ytd-grid-video-renderer"]
               [("href", "/watch?v=GRID001")] "" "") []
  ].

Definition mixed_page : dom := page_of [mixed_entry].

(** The registries a program can build: from [new Extractor()] by [insert]
    and [remove]. *)
Inductive reachable : Extractor.t → Prop :=
  | reachable_new : reachable Extractor.new
  | reachable_insert f x : reachable x → reachable (Extractor.insert f x)
  | reachable_remove f x : reachable x → reachable (Extractor.remove f x).

(** ** [fetchTitle] and [getTitle] *)

Definition set_title (x : value) (v : Video) : Video :=
  {| element := element v; display := display v; id := id v;
     title := x; viewed := viewed v |}.

(** [a || b] is [a] when [a] is truthy and [b] otherwise. *)
Definition js_or (a b : value) : value := if truthy a then a else b.

(** [node.textContent]: the data of the text nodes of the subtree, in
    document order. *)
Fixpoint textContent (n : node) : string :=
  match n with
  | Text data => data
  | Element _ kids =>
      (fix all (ks : list node) : string :=
         match ks with
         | [] => EmptyString
         | k :: ks' => textContent k +:+ all ks'
         end) kids
  end.

Fixpoint textContent_all (ks : list node) : string :=
  match ks with
  | [] => EmptyString
  | k :: ks' => textContent k +:+ textContent_all ks'
  end.

(** [s.trim()], on strings of ASCII characters: the white space of
    [is_space] is dropped at both ends. *)
Fixpoint trim_end (s : string) : string :=
  match s with
  | EmptyString => EmptyString
  | String c rest =>
      match trim_end rest with
      | EmptyString => if is_space c then EmptyString else String c EmptyString
      | kept => String c kept
      end
  end.

Definition trim (s : string) : string := trim_end (skip_space s).

(** [":scope #video-title[title]"] *)
Definition title_selector : selector :=
  Scope {| sel_tag := None; sel_id := Some "video-title"; sel_classes := [];
           sel_attrs := ["title"]; sel_not_attrs := [] |}.

(** [":scope a.yt-lockup-view-model__title"] *)
Definition lockup_title_selector : selector :=
  anchor None ["yt-lockup-view-model__title"].

(** The element [fetchTitle] reads: the second query is made only when the
    first one gives [null]. *)
Definition title_element (d : dom) (v : Video) : completion (option ref) :=
  let* first := querySelector d (element v) [title_selector] in
  match first with
  | Some _ => Normal first
  | None => querySelector d (element v) [lockup_title_selector]
  end.

(** [title.getAttribute("title") || title.textContent.trim()] *)
Definition title_of (e : ElementData) (kids : list node) : value :=
  js_or (of_option (getAttribute e "title"))
        (VString (trim (textContent (Element e kids)))).

Definition fetchTitle (d : dom) (v : Video) : completion (Video * value) :=
  let* found := title_element d v in
  match found with
  | None => Normal (v, VUndefined)
  | Some a =>
      match resolve d a with
      | Some (TNode (Element e kids)) =>
          let v' := set_title (title_of e kids) v in
          Normal (v', title v')
      | _ => TypeError
      end
  end.

(** [this.title || this.fetchTitle()] *)
Definition getTitle (d : dom) (v : Video) : completion (Video * value) :=
  if truthy (title v) then Normal (v, title v) else fetchTitle d v.

(** *** Predicates on strings *)

Fixpoint string_forallb (f : ascii → bool) (s : string) : bool :=
  match s with
  | EmptyString => true
  | String c rest => f c && string_forallb f rest
  end.

Definition head_is (f : ascii → bool) (s : string) : bool :=
  match s with
  | EmptyString => false
  | String c _ => f c
  end.

Fixpoint last_is (f : ascii → bool) (s : string) : bool :=
  match s with
  | EmptyString => false
  | String c EmptyString => f c
  | String _ rest => last_is f rest
  end.

(** *** Pages up to the [display] of their elements *)

(** The page with every [display] blanked: what is left is all that the
    getters of a [Video] read. *)
Fixpoint erase_display (n : node) : node :=
  match n with
  | Text data => Text data
  | Element e kids => Element (set_display "" e) (erase_display <$> kids)
  end.

Definition erase_target (t : target) : target :=
  match t with
  | TDocument kids => TDocument (erase_display <$> kids)
  | TNode n => TNode (erase_display n)
  end.

Definition erase_dom (d : dom) : dom :=
  match d with
  | Document kids => Document (erase_display <$> kids)
  | Detached n => Detached (erase_display n)
  end.

Definition erase_entry (x : ref * ElementData) : ref * ElementData :=
  (fst x, set_display "" (snd x)).

(** Two pages that differ in [display] values at most. *)
Definition same_but_display (d d' : dom) : Prop := erase_dom d = erase_dom d'.

(** An entry whose title link has neither a [title] attribute nor text. *)
Definition untitled_page : dom :=
  page_of [Element (tag "div" "" [] [] "" "") [
             Element (tag "a" "" ["yt-lockup-view-model__title"] [("href", "/watch?v=abc")] "" "")
               [Text "  "]]].

(** *** What an extraction keeps *)

(** The element at [r] is wrapped without exception and its video is
    viewed at the threshold. *)
Definition is_viewed (d : dom) (threshold : Z) (r : ref) : bool :=
  match new_Video d r with
  | Normal v =>
      match getViewed d v threshold with
      | Normal (_, seen) => truthy seen
      | TypeError => false
      end
  | TypeError => false
  end.

(** How many times [r] is in a list of elements. *)
Definition copies (r : ref) (rs : list ref) : nat :=
  length (filter (λ r', r' = r) rs).

(** A video as an extraction returns it: found viewed, with no id and no
    title yet, and holding the [display] its element has. *)
Definition kept (d : dom) (v : Video) : Prop :=
  viewed v = VBoolean true ∧ id v = VUndefined ∧ title v = VUndefined
  ∧ read_display d (element v) = Normal (display v).

(** The entry [x] is at or below the node at [r]. *)
Definition below (r : ref) (x : ref * ElementData) : Prop := ∃ p, fst x = p ++ r.

(** * Properties *)

(** ** Strings *)

Example slice_50 : slice_0_m1 "50%" = "50".
Proof. reflexivity. Qed.
Example slice_empty : slice_0_m1 "" = "".
Proof. reflexivity. Qed.
Example match_watch : match_video_id "/watch?v=abc123&t=5s" = Some "abc123".
Proof. reflexivity. Qed.
Example match_none : match_video_id "/shorts/abc123" = None.
Proof. reflexivity. Qed.
Example match_second : match_video_id "/watch?v=&list=x&v=Zz-9_" = Some "Zz-9_".
Proof. reflexivity. Qed.
Example parseInt_12_5 : parseInt "12.5" = Some 12%Z.
Proof. reflexivity. Qed.
Example parseInt_empty : parseInt "" = None.
Proof. reflexivity. Qed.

Lemma string_app_cons (c : ascii) (s t : string) : String c s +:+ t = String c (s +:+ t).
Proof. reflexivity. Qed.

Lemma string_app_assoc (s t u : string) : (s +:+ t) +:+ u = s +:+ t +:+ u.
Proof. induction s as [|c s IH]; [done|]. by rewrite !string_app_cons, IH. Qed.

Lemma string_app_length (s t : string) :
  String.length (s +:+ t) = String.length s + String.length t.
Proof. induction s as [|c s IH]; [done|]. rewrite string_app_cons. simpl. by rewrite IH. Qed.

Lemma substring_all (s t : string) :
  String.substring 0 (String.length s) (s +:+ t) = s.
Proof. induction s as [|c s IH]; [by destruct t|]. rewrite string_app_cons. simpl. by rewrite IH. Qed.

(** Dropping the last character undoes appending one. *)
Lemma slice_app_char (s : string) (c : ascii) :
  slice_0_m1 (s +:+ String c "") = s.
Proof.
  unfold slice_0_m1. rewrite string_app_length. simpl.
  replace (String.length s + 1 - 1) with (String.length s) by lia.
  apply substring_all.
Qed.

Lemma truthy_string (s : string) : truthy (VString s) = true ↔ s ≠ "".
Proof.
  simpl. destruct (String.eqb_spec s ""); simpl; split; try done.
Qed.

(** The captured group is never empty: the pattern asks for one character
    of the class at least. *)
Lemma match_here_nonempty (s g : string) : match_here s = Some g → g ≠ "".
Proof.
  unfold match_here. intros H.
  repeat case_match; simplify_eq; done.
Qed.

Lemma match_video_id_cons (c : ascii) (rest : string) :
  match_video_id (String c rest) =
  match match_here (String c rest) with
  | Some g => Some g
  | None => match_video_id rest
  end.
Proof. reflexivity. Qed.

Lemma match_video_id_nonempty (href g : string) :
  match_video_id href = Some g → g ≠ "".
Proof.
  induction href as [|c rest IH].
  - done.
  - rewrite match_video_id_cons.
    destruct (match_here (String c rest)) as [g'|] eqn:Hm.
    + intros [= <-]. by eapply match_here_nonempty.
    + exact IH.
Qed.

(** *** [parseInt] reads back what number-to-string conversion prints *)

Lemma is_digit_pretty_char (x : N) : is_digit (pretty_N_char x) = true.
Proof.
  unfold pretty_N_char. repeat case_match; reflexivity.
Qed.

Lemma digit_value_pretty_char (x : N) :
  (x < 10)%N → digit_value (pretty_N_char x) = x.
Proof.
  intros Hx.
  assert (x = 0 ∨ x = 1 ∨ x = 2 ∨ x = 3 ∨ x = 4 ∨ x = 5 ∨ x = 6 ∨ x = 7
          ∨ x = 8 ∨ x = 9)%N as Hcases by lia.
  destruct_or!; subst; reflexivity.
Qed.

(** Printing [x] in front of [s] and reading the digits with accumulator 0
    gives what reading [s] gives from accumulator [x]. *)
Lemma parse_digits_pretty_go (x : N) (s : string) :
  parse_digits (pretty_N_go x s) 0 = parse_digits s x.
Proof.
  revert s. induction (N.lt_wf_0 x) as [x _ IH]. intros s.
  destruct (decide (x = 0)%N) as [->|Hx].
  - by rewrite pretty_N_go_0.
  - rewrite pretty_N_go_step by lia.
    rewrite IH by (apply N.div_lt; lia).
    simpl. rewrite is_digit_pretty_char.
    rewrite digit_value_pretty_char by (apply N.mod_lt; lia).
    f_equal. pose proof (N.div_mod x 10). lia.
Qed.

Lemma pretty_go_starts_with_digit (x : N) (s : string) :
  starts_with_digit s = true → starts_with_digit (pretty_N_go x s) = true.
Proof.
  revert s. induction (N.lt_wf_0 x) as [x _ IH]. intros s Hs.
  destruct (decide (x = 0)%N) as [->|Hx].
  - by rewrite pretty_N_go_0.
  - rewrite pretty_N_go_step by lia.
    apply IH; [apply N.div_lt; lia|]. simpl. apply is_digit_pretty_char.
Qed.

Lemma pretty_N_starts_with_digit (n : N) : starts_with_digit (pretty n) = true.
Proof.
  unfold pretty, pretty_N. case_decide as Hn; [done|].
  rewrite pretty_N_go_step by lia.
  apply pretty_go_starts_with_digit. simpl. apply is_digit_pretty_char.
Qed.

Lemma parse_digits_pretty (n : N) : parse_digits (pretty n) 0 = n.
Proof.
  unfold pretty, pretty_N. case_decide as Hn; [by subst|].
  by rewrite parse_digits_pretty_go.
Qed.

Lemma digit_not_special (c : ascii) :
  is_digit c = true →
  is_space c = false ∧ Ascii.eqb c "-" = false ∧ Ascii.eqb c "+" = false.
Proof.
  intros Hc. unfold is_space.
  assert (48 ≤ nat_of_ascii c ≤ 57) as Hr.
  { unfold is_digit, in_range in Hc. apply andb_true_iff in Hc as [H1 H2].
    apply Nat.leb_le in H1, H2. lia. }
  split_and!.
  - apply orb_false_iff. split.
    + unfold in_range. apply andb_false_iff. right. apply Nat.leb_gt. lia.
    + destruct (Ascii.eqb_spec c " ") as [->|]; [|done]. by vm_compute in Hc.
  - destruct (Ascii.eqb_spec c "-") as [->|]; [|done]. by vm_compute in Hc.
  - destruct (Ascii.eqb_spec c "+") as [->|]; [|done]. by vm_compute in Hc.
Qed.

(** On a string that starts with a digit, [parseInt] is the value of the
    leading run of digits. *)
Lemma parseInt_digits (s : string) :
  starts_with_digit s = true → parseInt s = Some (Z.of_N (parse_digits s 0)).
Proof.
  destruct s as [|c rest]; [done|]. intros Hc.
  destruct (digit_not_special c Hc) as (Hsp & Hminus & Hplus).
  unfold parseInt. cbn [skip_space]. rewrite Hsp, Hminus, Hplus.
  by rewrite Hc.
Qed.

Lemma parseInt_pretty (n : N) : parseInt (pretty n) = Some (Z.of_N n).
Proof.
  rewrite parseInt_digits by apply pretty_N_starts_with_digit.
  by rewrite parse_digits_pretty.
Qed.

(** The width ["n%"] of a progress bar reads as [n]. *)
Lemma parseInt_percentage (n : N) :
  parseInt (slice_0_m1 (pretty n +:+ "%")) = Some (Z.of_N n).
Proof. by rewrite slice_app_char, parseInt_pretty. Qed.

(** ** The DOM store *)

Lemma descend_snoc (t : target) (p : list nat) (k : nat) :
  descend t (p ++ [k]) =
  match descend t p with
  | Some t' => TNode <$> children t' !! k
  | None => None
  end.
Proof.
  revert t. induction p as [|i p IH]; intros t; simpl.
  - by destruct (children t !! k).
  - destruct (children t !! i); [apply IH|done].
Qed.

Lemma resolve_descend (d : dom) (r : ref) :
  resolve d r = descend (root_of d) (rev r).
Proof.
  induction r as [|k up IH]; [done|].
  simpl. by rewrite descend_snoc, IH.
Qed.

Lemma element_at_below (d : dom) (r : ref) :
  element_at d r = element_below (root_of d) (rev r).
Proof. unfold element_at, element_below. by rewrite resolve_descend. Qed.

(** A node that has a child is a document or an element. *)
Lemma resolve_parent (d : dom) (k : nat) (up : ref) (t : target) :
  resolve d (k :: up) = Some t →
  ∃ t' n, resolve d up = Some t' ∧ children t' !! k = Some n ∧ t = TNode n.
Proof.
  simpl. destruct (resolve d up) as [t'|]; [|done].
  destruct (children t' !! k) as [n|] eqn:Hk; [|done].
  intros [= <-]. eauto.
Qed.

Lemma element_below_alter (f : ElementData → ElementData) (p : list nat) (n : node) :
  element_below (TNode (alter_node f p n)) p = f <$> element_below (TNode n) p.
Proof.
  revert n. induction p as [|i p IH]; intros [e kids|s]; try done.
  unfold element_below in *. simpl.
  rewrite list_lookup_alter_eq.
  destruct (kids !! i) as [m|]; [apply IH|done].
Qed.

Lemma alter_node_alter (f g : ElementData → ElementData) (p : list nat) (n : node) :
  alter_node f p (alter_node g p n) = alter_node (f ∘ g) p n.
Proof.
  revert n. induction p as [|i p IH]; intros [e kids|s]; try done.
  simpl. f_equal. rewrite list_alter_alter_eq.
  apply list_alter_ext; [|done]. intros m _. apply IH.
Qed.

Lemma alter_node_id (f : ElementData → ElementData) (p : list nat) (n : node) :
  (∀ e, element_below (TNode n) p = Some e → f e = e) →
  alter_node f p n = n.
Proof.
  revert n. induction p as [|i p IH]; intros [e kids|s] Hf; try done.
  - simpl. f_equal. by apply Hf.
  - simpl. f_equal.
    transitivity (alter (λ m, m) i kids); [|by apply list_alter_id].
    apply list_alter_ext; [|done]. intros m Hm. apply IH.
    intros e' He'. apply Hf. unfold element_below in *. simpl. by rewrite Hm.
Qed.

Lemma element_at_alter (f : ElementData → ElementData) (d : dom) (r : ref) :
  element_at (alter_dom f r d) r = f <$> element_at d r.
Proof.
  rewrite !element_at_below. destruct d as [kids|n]; simpl.
  - destruct (rev r) as [|i p]; [done|].
    unfold element_below. simpl. rewrite list_lookup_alter_eq.
    destruct (kids !! i) as [m|]; [apply element_below_alter|done].
  - apply element_below_alter.
Qed.

Lemma alter_dom_alter (f g : ElementData → ElementData) (d : dom) (r : ref) :
  alter_dom f r (alter_dom g r d) = alter_dom (f ∘ g) r d.
Proof.
  destruct d as [kids|n]; simpl.
  - destruct (rev r) as [|i p] eqn:Hr; simpl; rewrite Hr; [done|].
    f_equal. rewrite list_alter_alter_eq.
    apply list_alter_ext; [|done]. intros m _. apply alter_node_alter.
  - f_equal. apply alter_node_alter.
Qed.

Lemma alter_dom_id (f : ElementData → ElementData) (d : dom) (r : ref) :
  (∀ e, element_at d r = Some e → f e = e) → alter_dom f r d = d.
Proof.
  intros Hf. destruct d as [kids|n]; simpl.
  - destruct (rev r) as [|i p] eqn:Hr; [done|]. f_equal.
    transitivity (alter (λ m, m) i kids); [|by apply list_alter_id].
    apply list_alter_ext; [|done]. intros m Hm. apply alter_node_id.
    intros e He. apply Hf. rewrite element_at_below, Hr.
    unfold element_below in *. simpl. by rewrite Hm.
  - f_equal. apply alter_node_id. intros e He. apply Hf.
    by rewrite element_at_below.
Qed.

Lemma set_display_set_display (s s' : string) (e : ElementData) :
  set_display s (set_display s' e) = set_display s e.
Proof. reflexivity. Qed.

Lemma set_display_same (e : ElementData) :
  set_display (style_display (style e)) e = e.
Proof. by destruct e as [? ? ? ? []]. Qed.

(** ** Queries *)

Lemma subtree_element (r : ref) (e : ElementData) (kids : list node) :
  subtree r (Element e kids) = (r, e) :: forest r 0 kids.
Proof.
  simpl. f_equal. generalize 0.
  induction kids as [|k ks IH]; intros i; simpl; [done|]. by rewrite IH.
Qed.

Lemma forest_elem_of (r : ref) (i : nat) (ks : list node) (x : ref * ElementData) :
  x ∈ forest r i ks → ∃ j k, ks !! j = Some k ∧ x ∈ subtree ((i + j) :: r) k.
Proof.
  revert i. induction ks as [|k ks IH]; intros i; simpl.
  - by intros ?%elem_of_nil.
  - intros [Hx|Hx]%elem_of_app.
    + exists 0, k. by rewrite Nat.add_0_r.
    + apply IH in Hx as (j & k' & Hj & Hx).
      exists (S j), k'. by replace (i + S j) with (S i + j) by lia.
Qed.

(** Every entry of a subtree is the element its reference denotes. *)
Lemma subtree_sound (d : dom) (n : node) :
  ∀ r x, resolve d r = Some (TNode n) → x ∈ subtree r n →
    element_at d (fst x) = Some (snd x).
Proof.
  induction n as [s|e kids IH] using node_ind; intros r x Hr Hx.
  - by apply elem_of_nil in Hx.
  - rewrite subtree_element in Hx. apply elem_of_cons in Hx as [->|Hx].
    + unfold element_at. simpl. by rewrite Hr.
    + apply forest_elem_of in Hx as (j & k & Hj & Hx). simpl in Hx.
      rewrite Forall_lookup in IH. eapply (IH j k Hj); [|done].
      cbn [resolve]. rewrite Hr. cbn [children]. by rewrite Hj.
Qed.

Lemma descendants_sound (d : dom) (r : ref) (ds : list (ref * ElementData))
    (x : ref * ElementData) :
  descendants d r = Normal ds → x ∈ ds → element_at d (fst x) = Some (snd x).
Proof.
  unfold descendants. intros Hd Hx.
  destruct (resolve d r) as [[|[e kids|]]|] eqn:Hr; simplify_eq.
  apply forest_elem_of in Hx as (j & k & Hj & Hx). simpl in Hx.
  eapply subtree_sound; [|done].
  cbn [resolve]. rewrite Hr. cbn [children]. by rewrite Hj.
Qed.

(** The element [querySelector] returns exists and matches the list. *)
Lemma querySelector_sound (d : dom) (r a : ref) (sels : list selector) :
  querySelector d r sels = Normal (Some a) →
  ∃ e, element_at d a = Some e ∧ matches_any sels e = true.
Proof.
  unfold querySelector. destruct (descendants d r) as [ds|] eqn:Hd; [|done].
  simpl. destruct (list_find _ ds) as [[i [a' e]]|] eqn:Hfind; [|done].
  intros [= ->]. apply list_find_Some in Hfind as (Hi & Hm & _).
  exists e. split.
  - apply list_elem_of_lookup_2 in Hi.
    by apply (descendants_sound d r ds (a, e)).
  - simpl in Hm. by apply Is_true_true.
Qed.

(** A query is defined exactly on elements. *)
Lemma querySelector_returns (d : dom) (r : ref) (sels : list selector) :
  is_Some (element_at d r) → returns (querySelector d r sels).
Proof.
  intros [e He]. unfold querySelector, descendants, element_at in *.
  destruct (resolve d r) as [[|[e' kids|]]|]; simplify_eq. eexists. reflexivity.
Qed.

(** ** [derivePath] *)

(** A text node has no child. *)
Ltac no_child H :=
  exfalso; simpl in H; first [done | by rewrite lookup_nil in H].

Lemma count_siblings_add (chain : list node) (index : nat) :
  count_siblings chain index = length chain + index.
Proof.
  revert index. induction chain as [|sib chain IH]; intros index; simpl; [done|].
  rewrite IH. lia.
Qed.

Lemma preceding_siblings_length (d : dom) (k : nat) (up : ref) :
  is_Some (resolve d (k :: up)) → length (preceding_siblings d (k :: up)) = k.
Proof.
  intros [t Hr]. apply resolve_parent in Hr as (t' & n & Hup & Hk & _).
  simpl. rewrite Hup, length_take. apply lookup_lt_Some in Hk. lia.
Qed.

(** The index counted for a node is its position among the children of
    its parent. *)
Lemma sibling_index_cons (d : dom) (k : nat) (up : ref) :
  is_Some (resolve d (k :: up)) → sibling_index d (k :: up) = k.
Proof.
  intros Hr. unfold sibling_index, previousSibling_chain.
  rewrite count_siblings_add, length_reverse, preceding_siblings_length by done. lia.
Qed.

Lemma sibling_index_length (d : dom) (r : ref) :
  sibling_index d r = length (preceding_siblings d r).
Proof.
  unfold sibling_index, previousSibling_chain.
  rewrite count_siblings_add, length_reverse. lia.
Qed.

Lemma levels_onto_snoc (l : list nat) (k : nat) (path : string) :
  levels_onto (l ++ [k]) path = levels_onto l ("/" +:+ pretty k +:+ path).
Proof. unfold levels_onto. by rewrite foldr_app. Qed.

(** In a tree rooted in a document the walk ends at the document, after
    one index for each level it went through. *)
Lemma derivePath_loop_document (kids : list node) (node : ref) :
  ∀ (path : string) (t : target),
    resolve (Document kids) node = Some t → is_text t = false →
    derivePath_loop (Document kids) node path = Normal (levels_onto (rev node) path).
Proof.
  induction node as [|k up IH]; intros path t Hr Ht.
  - done.
  - destruct (resolve_parent _ _ _ _ Hr) as (t' & n & Hup & Hk & ->).
    destruct n as [e kids'|s]; [|done].
    cbn [derivePath_loop]. rewrite Hr. cbn [id_of].
    rewrite sibling_index_cons by eauto. cbn [rev]. rewrite levels_onto_snoc.
    eapply IH; [done|].
    destruct t' as [|[|]]; first [done | no_child Hk].
Qed.

(** In a tree rooted in an element the walk steps from the root to [null]
    and reads [id] on it. *)
Lemma derivePath_loop_detached (top : node) (node : ref) :
  ∀ (path : string) (e : ElementData),
    element_at (Detached top) node = Some e →
    derivePath_loop (Detached top) node path = TypeError.
Proof.
  induction node as [|k up IH]; intros path e He; unfold element_at in He.
  - simpl in *. by destruct top.
  - destruct (resolve (Detached top) (k :: up)) as [t|] eqn:Hr; [|done].
    destruct (resolve_parent _ _ _ _ Hr) as (t' & n & Hup & Hk & ->).
    destruct n as [e' kids'|s]; [|done].
    cbn [derivePath_loop]. rewrite Hr. cbn [id_of].
    destruct t' as [ks|[e'' ks|s]].
    + destruct up as [|k' up']; [done|].
      apply resolve_parent in Hup as (? & ? & _ & _ & ?). done.
    + eapply (IH _ e''). unfold element_at. by rewrite Hup.
    + no_child Hk.
Qed.

Lemma levels_onto_app (l : list nat) (path : string) :
  levels_onto l path = levels_onto l "" +:+ path.
Proof.
  induction l as [|i l IH]; simpl; [done|].
  rewrite IH. by rewrite !string_app_assoc.
Qed.

Lemma path_string_slashes (l : list nat) :
  path_string l ≠ "" ∧ (∃ q, path_string l = "/" +:+ q) ∧ (∃ q, path_string l = q +:+ "/").
Proof.
  unfold path_string. split_and!.
  - by destruct l.
  - destruct l as [|i l]; simpl; [by exists ""|eauto].
  - rewrite levels_onto_app. eauto.
Qed.

(** Reading the levels outermost first gives the reference back. *)
Lemma levels_indices (d : dom) (r : ref) :
  is_Some (resolve d r) →
  (λ l, length (preceding_siblings d l)) <$> levels r = rev r.
Proof.
  induction r as [|k up IH]; intros Hr; [done|].
  cbn [levels rev]. rewrite fmap_app. f_equal.
  - apply IH. destruct Hr as [t Hr].
    apply resolve_parent in Hr as (t' & _ & Hup & _). eauto.
  - simpl. f_equal. by apply preceding_siblings_length.
Qed.

(** In a document every level from an element up is an element. *)
Lemma levels_elements (d : dom) (r : ref) :
  in_document d → is_Some (element_at d r) →
  Forall (λ l, is_Some (element_at d l)) (levels r).
Proof.
  intros [kids ->]. induction r as [|k up IH]; intros [e He]; [constructor|].
  cbn [levels]. apply Forall_app. split; [|by repeat constructor; eauto].
  unfold element_at in He.
  destruct (resolve (Document kids) (k :: up)) as [t|] eqn:Hr; [|done].
  apply resolve_parent in Hr as (t' & n & Hup & Hk & ->).
  destruct up as [|k' up']; [constructor|].
  apply IH. unfold element_at. rewrite Hup.
  destruct t' as [ks|[e' ks|s]]; eauto.
  - apply resolve_parent in Hup as (? & ? & _ & _ & ?). done.
  - no_child Hk.
Qed.

Lemma derivePath_document (d : dom) (v : Video) :
  in_document d → is_Some (element_at d (element v)) →
  derivePath d v = Normal (path_string (rev (element v))).
Proof.
  intros [kids ->] [e He]. unfold derivePath, path_string, element_at in *.
  destruct (resolve (Document kids) (element v)) as [t|] eqn:Hr; [|done].
  eapply derivePath_loop_document; [done|]. by destruct t as [|[|]].
Qed.

(** C5 (as the code has it). For an element of a document, [derivePath]
    takes one index at every level from the outermost ancestor element down
    to the wrapped element itself, each level being an element whether or
    not it has an [id] attribute; the index is the number of siblings that
    precede the node, and the result is [/i1/i2/.../in/], outermost first. *)
Theorem derivePath_every_level (d : dom) (v : Video) :
  in_document d → is_Some (element_at d (element v)) →
  derivePath d v =
    Normal (path_string ((λ l, length (preceding_siblings d l)) <$> levels (element v)))
  ∧ Forall (λ l, is_Some (element_at d l)) (levels (element v)).
Proof.
  intros Hd He. split; [|by apply levels_elements].
  rewrite levels_indices; [by apply derivePath_document|].
  destruct He as [e He]. unfold element_at in He.
  destruct (resolve d (element v)); [eauto|done].
Qed.

Lemma derivePath_every_level_witness :
  derivePath home_page (video_of first_entry "block") =
    Normal (path_string ((λ l, length (preceding_siblings home_page l))
                           <$> levels (element (video_of first_entry "block"))))
  ∧ Forall (λ l, is_Some (element_at home_page l))
      (levels (element (video_of first_entry "block"))).
Proof.
  apply (derivePath_every_level home_page (video_of first_entry "block")).
  - by eexists.
  - by eexists.
Defined.

(** C5 (as the specification words it) fails: [body] has an [id] attribute
    and its index, 2, is part of the path all the same. *)
Lemma derivePath_counts_identified_level :
  element_at home_page body_ref = Some (tag "body" "main" [] [] "" "")
  ∧ derivePath home_page (video_of first_entry "block") = Normal "/0/2/0/"
  ∧ derivePath_unidentified home_page (video_of first_entry "block") = "/0/0/"
  ∧ derivePath home_page (video_of first_entry "block")
    ≠ Normal (derivePath_unidentified home_page (video_of first_entry "block")).
Proof. by vm_compute. Qed.

(** ** [fetchID] and [getID] *)

Lemma deriveURL_nonempty (d : dom) (v : Video) (u : string) :
  deriveURL d v = Normal (Some u) → u ≠ "".
Proof.
  unfold deriveURL. destruct (querySelector d (element v) url_selectors) as [[a|]|]; try done.
  simpl. destruct (element_at d a) as [e|]; [|done].
  destruct (getAttribute e "href") as [href|]; [|done].
  intros [= H]. by eapply match_video_id_nonempty.
Qed.

Lemma legal_id_both (u path : string) :
  u ≠ "" → path ≠ "" → legal_id (Some u) path = VString (path +:+ u).
Proof.
  intros Hu Hp. unfold legal_id, js_and.
  apply truthy_string in Hu, Hp. cbn [of_option]. by rewrite Hu, Hp.
Qed.

Lemma legal_id_missing (url : option string) (path : string) :
  url = None ∨ url = Some "" ∨ path = "" → legal_id url path = VUndefined.
Proof.
  intros [->|[->| ->]]; try done.
  unfold legal_id, js_and. destruct (truthy (of_option url)) eqn:Hu; [done|].
  by rewrite Hu.
Qed.

(** C4. [fetchID] stores and returns [path + url] when both derivations
    gave a truthy value, and [undefined] as soon as one of them did not. *)
Theorem fetchID_conjunction (d : dom) (v : Video) (url : option string) (path : string) :
  deriveURL d v = Normal url → derivePath d v = Normal path →
  fetchID d v = Normal (set_id (legal_id url path) v, legal_id url path)
  ∧ (∀ u, url = Some u → u ≠ "" → path ≠ "" → legal_id url path = VString (path +:+ u))
  ∧ (url = None ∨ url = Some "" ∨ path = "" → legal_id url path = VUndefined).
Proof.
  intros Hurl Hpath. split_and!.
  - unfold fetchID. by rewrite Hurl, Hpath.
  - intros u -> Hu Hp. by apply legal_id_both.
  - apply legal_id_missing.
Qed.

Lemma fetchID_conjunction_witness :
  fetchID home_page (video_of first_entry "block") =
    Normal (set_id (legal_id (Some "AAA111") "/0/2/0/") (video_of first_entry "block"),
            legal_id (Some "AAA111") "/0/2/0/")
  ∧ (∀ u, Some "AAA111" = Some u → u ≠ "" → "/0/2/0/" ≠ "" →
       legal_id (Some "AAA111") "/0/2/0/" = VString ("/0/2/0/" +:+ u))
  ∧ (Some "AAA111" = None ∨ Some "AAA111" = Some "" ∨ "/0/2/0/" = "" →
       legal_id (Some "AAA111") "/0/2/0/" = VUndefined).
Proof.
  apply (fetchID_conjunction home_page (video_of first_entry "block")).
  - reflexivity.
  - reflexivity.
Defined.

(** C6. [getID] returns a truthy memoised [id] as it is; on an undefined
    [id] it is [fetchID], and since a failed [fetchID] leaves [id]
    undefined the next [getID] is [fetchID] again, on whatever the page then
    is. *)
Theorem getID_retries (d : dom) (v : Video) :
  (truthy (id v) = true → getID d v = Normal (v, id v))
  ∧ (id v = VUndefined → getID d v = fetchID d v)
  ∧ (∀ v', fetchID d v = Normal (v', VUndefined) →
       id v' = VUndefined ∧ ∀ d', getID d' v' = fetchID d' v').
Proof.
  split_and!.
  - intros H. unfold getID. by rewrite H.
  - intros H. unfold getID. by rewrite H.
  - intros v' H. unfold fetchID in H.
    destruct (deriveURL d v) as [url|]; [|done].
    destruct (derivePath d v) as [path|]; [|done].
    simpl in H. injection H as <- Hid. split; [done|].
    intros d'. unfold getID. cbn [id set_id]. by rewrite Hid.
Qed.

Lemma getID_retries_witness :
  getID home_page (video_of second_entry "") = fetchID home_page (video_of second_entry "")
  ∧ id (video_of second_entry "") = VUndefined
  ∧ getID home_page_reset (video_of second_entry "")
    = fetchID home_page_reset (video_of second_entry "")
  ∧ getID home_page (set_id (VString "/0/2/0/AAA111") (video_of first_entry "block"))
    = Normal (set_id (VString "/0/2/0/AAA111") (video_of first_entry "block"),
              VString "/0/2/0/AAA111").
Proof.
  pose proof (getID_retries home_page (video_of second_entry "")) as (_ & Hundef & Hfail).
  pose proof (getID_retries home_page
                (set_id (VString "/0/2/0/AAA111") (video_of first_entry "block")))
    as (Hmemo & _ & _).
  destruct (Hfail (video_of second_entry "") eq_refl) as [Hid Hagain].
  split_and!.
  - apply Hundef. reflexivity.
  - exact Hid.
  - apply Hagain.
  - apply Hmemo. reflexivity.
Defined.

(** C10. For an element of a document, [derivePath] returns a string that
    is not empty and that begins and ends with a slash, so it is truthy;
    [fetchID] then returns [undefined] exactly when [deriveURL] does. *)
Theorem derivePath_truthy (d : dom) (v : Video) :
  in_document d → is_Some (element_at d (element v)) →
  ∃ path, derivePath d v = Normal path
    ∧ path ≠ "" ∧ (∃ q, path = "/" +:+ q) ∧ (∃ q, path = q +:+ "/")
    ∧ truthy (VString path) = true
    ∧ ((∃ v', fetchID d v = Normal (v', VUndefined)) ↔ deriveURL d v = Normal None).
Proof.
  intros Hd He. exists (path_string (rev (element v))).
  pose proof (derivePath_document d v Hd He) as Hpath.
  destruct (path_string_slashes (rev (element v))) as (Hne & Hhead & Hlast).
  split_and!; try done.
  - by apply truthy_string.
  - unfold fetchID. rewrite Hpath.
    destruct (deriveURL d v) as [[u|]|] eqn:Hurl; simpl.
    + apply deriveURL_nonempty in Hurl. rewrite legal_id_both by done.
      split; [by intros [v' ?]|done].
    + split; [done|]. intros _. by eexists.
    + split; [by intros [v' ?]|done].
Qed.

Lemma derivePath_truthy_witness :
  ∃ path, derivePath home_page (video_of second_entry "") = Normal path
    ∧ path ≠ "" ∧ (∃ q, path = "/" +:+ q) ∧ (∃ q, path = q +:+ "/")
    ∧ truthy (VString path) = true
    ∧ ((∃ v', fetchID home_page (video_of second_entry "") = Normal (v', VUndefined))
       ↔ deriveURL home_page (video_of second_entry "") = Normal None).
Proof.
  apply (derivePath_truthy home_page (video_of second_entry "")).
  - by eexists.
  - by eexists.
Defined.

(** Outside a document the walk does not return: it reads [id] on the
    [null] parent of the root. *)
Lemma derivePath_detached (top : node) (v : Video) :
  is_Some (element_at (Detached top) (element v)) →
  derivePath (Detached top) v = TypeError.
Proof. intros [e He]. by eapply derivePath_loop_detached. Qed.

(** ** [hide] and [show] *)

(** As long as the element still shows what the constructor saw, [hide]
    followed by [show] gives the page back. *)
Lemma hide_show (d : dom) (v : Video) :
  read_display d (element v) = Normal (display v) →
  ∃ d1, hide d v = Normal d1
    ∧ read_display d1 (element v) = Normal "none"
    ∧ show d1 v = Normal d.
Proof.
  unfold read_display, hide, show, write_display.
  destruct (element_at d (element v)) as [e|] eqn:He; [|done].
  intros [= Hs]. eexists. split_and!; [done|..].
  - by rewrite element_at_alter, He.
  - rewrite element_at_alter, He. simpl. f_equal.
    rewrite alter_dom_alter. apply alter_dom_id.
    intros e' He'. simplify_eq. simpl.
    rewrite set_display_set_display, <-Hs. apply set_display_same.
Qed.

(** C7. Whatever [display] value [s] the element has when a [Video] is
    built on it, the empty string included, the [Video] holds [s]; on it,
    and on every state of it that its getters lead to, [hide] sets the
    value to ["none"] and [show] then gives back the page as it was, where
    the value is [s]. *)
Theorem hide_show_restores (d : dom) (el : ref) (s : string) :
  read_display d el = Normal s →
  ∃ v, new_Video d el = Normal v ∧ element v = el ∧ display v = s
    ∧ ∀ v', element v' = el → display v' = s →
        ∃ d1 d2, hide d v' = Normal d1 ∧ read_display d1 el = Normal "none"
          ∧ show d1 v' = Normal d2 ∧ read_display d2 el = Normal s ∧ d2 = d.
Proof.
  intros Hs. eexists. split_and!.
  - unfold new_Video. rewrite Hs. reflexivity.
  - done.
  - done.
  - intros v' <- <-.
    destruct (hide_show d v' Hs) as (d1 & Hhide & Hnone & Hshow).
    by exists d1, d.
Qed.

Lemma hide_show_restores_witness :
  ∃ v, new_Video home_page second_entry = Normal v
    ∧ element v = second_entry ∧ display v = ""
    ∧ ∀ v', element v' = second_entry → display v' = "" →
        ∃ d1 d2, hide home_page v' = Normal d1
          ∧ read_display d1 second_entry = Normal "none"
          ∧ show d1 v' = Normal d2 ∧ read_display d2 second_entry = Normal ""
          ∧ d2 = home_page.
Proof.
  apply (hide_show_restores home_page second_entry ""). reflexivity.
Defined.

(** ** [getViewed] *)

Lemma getViewed_found (d : dom) (v : Video) (t : Z) (bar : ref) (e : ElementData) :
  querySelector d (element v) bar_selectors = Normal (Some bar) →
  element_at d bar = Some e →
  getViewed d v t =
    let seen := VBoolean (js_ge (parseInt (slice_0_m1 (style_width (style e)))) t) in
    Normal (set_viewed seen v, seen).
Proof. intros Hq He. unfold getViewed. by rewrite Hq; simpl; rewrite He. Qed.

Lemma getViewed_not_found (d : dom) (v : Video) (t : Z) :
  querySelector d (element v) bar_selectors = Normal None →
  getViewed d v t = Normal (v, VUndefined).
Proof. intros Hq. unfold getViewed. by rewrite Hq. Qed.

(** C3. When the progress bar found has the width ["n%"], [getViewed]
    returns a boolean, which is [true] exactly when [threshold <= n]; so
    ["50%"] against 50 gives [true] and ["49%"] against 50 gives [false]. *)
Theorem getViewed_compares (d : dom) (v : Video) (bar : ref) (e : ElementData) :
  querySelector d (element v) bar_selectors = Normal (Some bar) →
  element_at d bar = Some e →
  (∀ (n : N) (threshold : Z), style_width (style e) = pretty n +:+ "%" →
     ∃ b, getViewed d v threshold = Normal (set_viewed (VBoolean b) v, VBoolean b)
       ∧ (b = true ↔ (threshold ≤ Z.of_N n)%Z))
  ∧ (style_width (style e) = "50%" →
       getViewed d v 50 = Normal (set_viewed (VBoolean true) v, VBoolean true))
  ∧ (style_width (style e) = "49%" →
       getViewed d v 50 = Normal (set_viewed (VBoolean false) v, VBoolean false)).
Proof.
  intros Hq He. split_and!.
  - intros n t Hw. rewrite (getViewed_found d v t bar e Hq He), Hw.
    rewrite parseInt_percentage. eexists. split; [done|].
    simpl. apply Z.leb_le.
  - intros Hw. by rewrite (getViewed_found d v 50 bar e Hq He), Hw.
  - intros Hw. by rewrite (getViewed_found d v 50 bar e Hq He), Hw.
Qed.

(** C8. On a given page, a video that [getViewed] reports as viewed for a
    threshold is reported as viewed for every smaller threshold. *)
Theorem getViewed_antitone (d : dom) (v v2 : Video) (t1 t2 : Z) :
  (t1 < t2)%Z →
  getViewed d v t2 = Normal (v2, VBoolean true) →
  getViewed d v t1 = Normal (set_viewed (VBoolean true) v, VBoolean true).
Proof.
  intros Hlt. unfold getViewed.
  destruct (querySelector d (element v) bar_selectors) as [[bar|]|]; try done.
  simpl. destruct (element_at d bar) as [e|]; [|done].
  destruct (parseInt _) as [p|]; simpl; [|done].
  intros [= _ Hle]. apply Z.leb_le in Hle.
  assert ((t1 <=? p)%Z = true) as -> by (apply Z.leb_le; lia). done.
Qed.

(** C2 (as the code has it). On an element, [getViewed] either finds a
    progress bar, and then stores in [viewed] the boolean it returns, or
    finds none, and then returns [undefined] and leaves the video, its
    [viewed] field included, as it was. *)
Theorem getViewed_overwrites_when_found (d : dom) (v : Video) (threshold : Z) :
  is_Some (element_at d (element v)) →
  (∃ bar b, querySelector d (element v) bar_selectors = Normal (Some bar)
     ∧ getViewed d v threshold = Normal (set_viewed (VBoolean b) v, VBoolean b)
     ∧ viewed (set_viewed (VBoolean b) v) = VBoolean b)
  ∨ (querySelector d (element v) bar_selectors = Normal None
     ∧ getViewed d v threshold = Normal (v, VUndefined)).
Proof.
  intros Hel.
  destruct (querySelector_returns d (element v) bar_selectors Hel) as [[bar|] Hq].
  - left. destruct (querySelector_sound _ _ _ _ Hq) as (e & He & _).
    exists bar. eexists. split_and!; [done| |done].
    by rewrite (getViewed_found d v threshold bar e Hq He).
  - right. split; [done|]. by apply getViewed_not_found.
Qed.

(** C2 (as the specification words it) fails: the first entry was viewed
    when the video last looked; once its progress bar is gone, [getViewed]
    returns [undefined] and [viewed] still holds [true]. *)
Lemma getViewed_keeps_viewed_without_bar :
  let v0 := video_of first_entry "block" in
  let v1 := set_viewed (VBoolean true) v0 in
  getViewed home_page v0 50 = Normal (v1, VBoolean true)
  ∧ getViewed home_page_reset v1 50 = Normal (v1, VUndefined)
  ∧ viewed v1 = VBoolean true
  ∧ viewed v1 ≠ VUndefined.
Proof. by vm_compute. Qed.

(** ** [deriveURL] *)

Lemma matches_any_Permutation (sels sels' : list selector) (e : ElementData) :
  sels ≡ₚ sels' → matches_any sels e = matches_any sels' e.
Proof.
  intros Hp. unfold matches_any. apply eq_true_iff_eq.
  rewrite !existsb_exists. split; intros (s & Hin & Hs); exists s; split; try done.
  - by eapply Permutation_in.
  - eapply Permutation_in; [symmetry|]; done.
Qed.

Lemma querySelector_Permutation (d : dom) (r : ref) (sels sels' : list selector) :
  sels ≡ₚ sels' → querySelector d r sels = querySelector d r sels'.
Proof.
  intros Hp. unfold querySelector. destruct (descendants d r) as [ds|]; [|done].
  simpl. do 2 f_equal. apply list_find_ext. intros x.
  by rewrite (matches_any_Permutation sels sels').
Qed.

Lemma querySelector_first (d : dom) (r a : ref) (sels : list selector)
    (ds : list (ref * ElementData)) :
  descendants d r = Normal ds →
  querySelector d r sels = Normal (Some a) ↔
  ∃ i e, ds !! i = Some (a, e) ∧ matches_any sels e = true
    ∧ ∀ j x, ds !! j = Some x → j < i → matches_any sels (snd x) = false.
Proof.
  intros Hd. unfold querySelector. rewrite Hd. simpl. split.
  - destruct (list_find _ ds) as [[i [a' e]]|] eqn:Hfind; [|done].
    intros [= ->]. apply list_find_Some in Hfind as (Hi & Hm & Hfirst).
    exists i, e. split_and!; [done|by apply Is_true_true|].
    intros j x Hj Hlt. specialize (Hfirst j x Hj Hlt).
    by destruct (matches_any sels x.2).
  - intros (i & e & Hi & Hm & Hfirst).
    assert (list_find (λ x, matches_any sels x.2) ds = Some (i, (a, e))) as ->; [|done].
    apply list_find_Some. split_and!; [done|by apply Is_true_true|].
    intros j x Hj Hlt Hx. apply Is_true_true in Hx.
    by rewrite (Hfirst j x Hj Hlt) in Hx.
Qed.

(** C1 (as the code has it). The hyperlink of [deriveURL] is the first
    element of the subtree, in document order, that matches one selector of
    the list or another; reordering the list changes nothing. *)
Theorem deriveURL_document_order (d : dom) (v : Video) (ds : list (ref * ElementData)) :
  descendants d (element v) = Normal ds →
  (∀ a, querySelector d (element v) url_selectors = Normal (Some a) ↔
     ∃ i e, ds !! i = Some (a, e) ∧ matches_any url_selectors e = true
       ∧ ∀ j x, ds !! j = Some x → j < i → matches_any url_selectors (snd x) = false)
  ∧ (∀ sels, sels ≡ₚ url_selectors →
       deriveURL d v =
         let* hyperlink := querySelector d (element v) sels in
         url_of_hyperlink d hyperlink).
Proof.
  intros Hd. split.
  - intros a. by apply querySelector_first.
  - intros sels Hp. unfold deriveURL.
    by rewrite (querySelector_Permutation d (element v) sels url_selectors).
Qed.

Lemma deriveURL_document_order_witness :
  querySelector home_page first_entry url_selectors = Normal (Some [0; 0; 2; 0])
  ∧ deriveURL home_page (video_of first_entry "block") =
      let* hyperlink := querySelector home_page first_entry (reverse url_selectors) in
      url_of_hyperlink home_page hyperlink.
Proof.
  destruct (deriveURL_document_order home_page (video_of first_entry "block") _ eq_refl)
    as [Hfirst Horder].
  split.
  - apply Hfirst. exists 0. eexists. split_and!; [reflexivity|reflexivity|].
    intros j x _ Hj. lia.
  - apply Horder. apply reverse_Permutation.
Defined.

(** C1 (as the specification words it) fails. In [mixed_page] the link
    that the seventh selector matches comes before the link that the first
    selector matches, and [deriveURL] reads the former. In [home_page] the
    thumbnail link, which only the last selector matches, comes before the
    title link, which the selector before it matches, and [deriveURL] reads
    the thumbnail link. *)
Lemma deriveURL_ignores_selector_order :
  (querySelector mixed_page first_entry url_selectors = Normal (Some [0; 0; 2; 0])
   ∧ querySelector_by_priority mixed_page first_entry url_selectors
     = Normal (Some [1; 0; 2; 0])
   ∧ deriveURL mixed_page (video_of first_entry "") = Normal (Some "SEARCH7")
   ∧ deriveURL_by_priority mixed_page (video_of first_entry "") = Normal (Some "GRID001")
   ∧ deriveURL mixed_page (video_of first_entry "")
     ≠ deriveURL_by_priority mixed_page (video_of first_entry ""))
  ∧ (querySelector home_page first_entry url_selectors = Normal (Some [0; 0; 2; 0])
     ∧ querySelector_by_priority home_page first_entry url_selectors
       = Normal (Some [1; 0; 2; 0])
     ∧ deriveURL home_page (video_of first_entry "block") = Normal (Some "AAA111")
     ∧ deriveURL_by_priority home_page (video_of first_entry "block")
       = Normal (Some "BBB222")
     ∧ deriveURL home_page (video_of first_entry "block")
       ≠ deriveURL_by_priority home_page (video_of first_entry "block")).
Proof. by vm_compute. Qed.

(** ** The [Extractor] registry *)

Lemma mapM_snoc {A B} (f : A → completion B) (l : list A) (x : A) :
  mapM f (l ++ [x]) =
  let* ys := mapM f l in
  let* y := f x in
  Normal (ys ++ [y]).
Proof.
  induction l as [|a l IH]; simpl.
  - by destruct (f x).
  - destruct (f a) as [b|]; [|done]. simpl. rewrite IH.
    destruct (mapM f l) as [ys|]; [|done]. simpl. by destruct (f x).
Qed.

Lemma set_add_member (f : fnref) (s : list fnref) : f ∈ s → set_add f s = s.
Proof. intros Hf. unfold set_add. by rewrite decide_True. Qed.

Lemma set_add_fresh (f : fnref) (s : list fnref) : f ∉ s → set_add f s = s ++ [f].
Proof. intros Hf. unfold set_add. by rewrite decide_False. Qed.

Lemma set_add_elem_of (f : fnref) (s : list fnref) : f ∈ set_add f s.
Proof.
  unfold set_add. case_decide; [done|]. apply elem_of_app. right. by apply list_elem_of_singleton.
Qed.

Lemma set_add_add (f : fnref) (s : list fnref) : set_add f (set_add f s) = set_add f s.
Proof. apply set_add_member, set_add_elem_of. Qed.

Lemma set_delete_absent (f : fnref) (s : list fnref) : f ∉ s → set_delete f s = s.
Proof.
  intros Hf. unfold set_delete. induction s as [|g s IH]; [done|].
  apply not_elem_of_cons in Hf as [Hne Hf].
  rewrite filter_cons_True by done. by rewrite IH.
Qed.

(** The registry never holds a function twice. *)
Lemma set_add_NoDup (f : fnref) (s : list fnref) : NoDup s → NoDup (set_add f s).
Proof.
  intros Hs. unfold set_add. case_decide as Hf; [done|].
  apply NoDup_app. split_and!; [done| |apply NoDup_singleton].
  intros g Hg ->%list_elem_of_singleton. done.
Qed.

Lemma set_delete_NoDup (f : fnref) (s : list fnref) : NoDup s → NoDup (set_delete f s).
Proof. apply NoDup_filter. Qed.

Lemma reachable_NoDup (x : Extractor.t) : reachable x → NoDup (Extractor.subextractors x).
Proof.
  induction 1 as [|f x _ IH|f x _ IH]; simpl.
  - constructor.
  - by apply set_add_NoDup.
  - by apply set_delete_NoDup.
Qed.

Lemma occurrences_absent (f : fnref) (s : list fnref) :
  f ∉ s → filter (λ g, g = f) s = [].
Proof.
  intros Hf. induction s as [|g s IH]; [done|].
  apply not_elem_of_cons in Hf as [Hne Hf].
  rewrite filter_cons_False by done. by apply IH.
Qed.

Lemma occurrences_member (f : fnref) (s : list fnref) :
  NoDup s → f ∈ s → length (filter (λ g, g = f) s) = 1.
Proof.
  induction 1 as [|g s Hg Hs IH]; intros Hf.
  - by apply elem_of_nil in Hf.
  - destruct (decide (g = f)) as [->|Hne].
    + rewrite filter_cons_True by done. simpl. by rewrite occurrences_absent.
    + rewrite filter_cons_False by done. apply IH.
      apply elem_of_cons in Hf as [->|]; done.
Qed.

Lemma elements_of_insert_fresh funs (f : fnref) (x : Extractor.t) (d : dom) (el : ref) :
  f ∉ Extractor.subextractors x →
  Extractor.elements_of funs (Extractor.insert f x) d el =
  let* others := Extractor.elements_of funs x d el in
  let* own := funs f d el in
  Normal (others ++ own).
Proof.
  intros Hf. unfold Extractor.elements_of, Extractor.insert. simpl.
  rewrite set_add_fresh by done. rewrite mapM_snoc.
  destruct (mapM _ (Extractor.subextractors x)) as [ys|]; [|done]. simpl.
  destruct (funs f d el) as [y|]; [|done]. simpl.
  rewrite concat_app. simpl. by rewrite List.app_nil_r.
Qed.

(** ** Instances on the sample pages *)

Lemma getViewed_compares_witness :
  (∃ b, getViewed (entry_page "50%") (video_of first_entry "block") 50
        = Normal (set_viewed (VBoolean b) (video_of first_entry "block"), VBoolean b)
      ∧ (b = true ↔ (50 ≤ Z.of_N 50)%Z))
  ∧ getViewed (entry_page "50%") (video_of first_entry "block") 50
    = Normal (set_viewed (VBoolean true) (video_of first_entry "block"), VBoolean true)
  ∧ getViewed (entry_page "49%") (video_of first_entry "block") 50
    = Normal (set_viewed (VBoolean false) (video_of first_entry "block"), VBoolean false).
Proof.
  destruct (getViewed_compares (entry_page "50%") (video_of first_entry "block") bar_ref
              (tag "div" "progress"
                 ["style-scope"; "ytd-thumbnail-overlay-resume-playback-renderer"] [] "" "50%")
              eq_refl eq_refl) as (Hany & H50 & _).
  destruct (getViewed_compares (entry_page "49%") (video_of first_entry "block") bar_ref
              (tag "div" "progress"
                 ["style-scope"; "ytd-thumbnail-overlay-resume-playback-renderer"] [] "" "49%")
              eq_refl eq_refl) as (_ & _ & H49).
  split_and!.
  - apply (Hany 50%N 50%Z). reflexivity.
  - apply H50. reflexivity.
  - apply H49. reflexivity.
Defined.

Lemma getViewed_antitone_witness :
  getViewed home_page (video_of first_entry "block") 30
  = Normal (set_viewed (VBoolean true) (video_of first_entry "block"), VBoolean true).
Proof.
  apply (getViewed_antitone home_page (video_of first_entry "block")
           (set_viewed (VBoolean true) (video_of first_entry "block")) 30 80).
  - lia.
  - reflexivity.
Defined.

Lemma getViewed_overwrites_when_found_witness :
  (∃ bar b,
     querySelector home_page_reset (element (video_of first_entry "block")) bar_selectors
     = Normal (Some bar)
     ∧ getViewed home_page_reset (video_of first_entry "block") 50
       = Normal (set_viewed (VBoolean b) (video_of first_entry "block"), VBoolean b)
     ∧ viewed (set_viewed (VBoolean b) (video_of first_entry "block")) = VBoolean b)
  ∨ (querySelector home_page_reset (element (video_of first_entry "block")) bar_selectors
     = Normal None
     ∧ getViewed home_page_reset (video_of first_entry "block") 50
       = Normal (video_of first_entry "block", VUndefined)).
Proof.
  apply (getViewed_overwrites_when_found home_page_reset (video_of first_entry "block") 50).
  by eexists.
Defined.

(** The whole extraction on the sample page: of the two home entries only
    the first is viewed at 50%, and registering the home subextractor twice
    does not list it twice. *)
Example extract_home_page :
  Extractor.extract builtin
    (Extractor.insert 3 (Extractor.insert 3 Extractor.new)) home_page body_ref 50
  = Normal [set_viewed (VBoolean true) (video_of first_entry "block")].
Proof. reflexivity. Qed.

(** A failed [fetchID] is tried again by the next [getID], which succeeds
    once the link has a video id. *)
Example getID_second_attempt :
  let before := page_of [lockup "" "/shorts/xyz" "/shorts/xyz" []] in
  let after := page_of [lockup "" "/watch?v=xyz" "/watch?v=xyz" []] in
  let v := video_of first_entry "" in
  getID before v = Normal (v, VUndefined)
  ∧ getID after v = Normal (set_id (VString "/0/2/0/xyz") v, VString "/0/2/0/xyz").
Proof. by vm_compute. Qed.

(** ** The video-id pattern *)

Lemma match_here_eqb (c1 c2 : ascii) (rest : string) :
  match_here (String c1 (String c2 rest)) =
  if Ascii.eqb c1 "v" && Ascii.eqb c2 "=" then
    match id_run rest with
    | EmptyString => None
    | g => Some g
    end
  else None.
Proof.
  destruct c1 as [[] [] [] [] [] [] [] []]; try reflexivity.
  destruct c2 as [[] [] [] [] [] [] [] []]; reflexivity.
Qed.

Lemma match_here_single (c : ascii) : match_here (String c "") = None.
Proof. destruct c as [[] [] [] [] [] [] [] []]; reflexivity. Qed.

Lemma match_here_Some (s g : string) :
  match_here s = Some g ↔ ∃ rest, s = "v=" +:+ rest ∧ g = id_run rest ∧ g ≠ "".
Proof.
  split.
  - destruct s as [|c1 [|c2 rest]]; [done|by rewrite match_here_single|].
    rewrite match_here_eqb.
    destruct (Ascii.eqb_spec c1 "v") as [->|]; [|done].
    destruct (Ascii.eqb_spec c2 "=") as [->|]; [|done]. simpl.
    destruct (id_run rest) eqn:Hrun; [done|]. intros [= <-]. by exists rest.
  - intros (rest & -> & -> & Hne). change ("v=" +:+ rest) with (String "v" (String "=" rest)).
    rewrite match_here_eqb. simpl. by destruct (id_run rest).
Qed.

Lemma id_run_split (s : string) :
  ∃ post, s = id_run s +:+ post
    ∧ string_forallb is_id_char (id_run s) = true
    ∧ head_is is_id_char post = false.
Proof.
  induction s as [|c s (post & Hs & Hall & Hpost)]; simpl.
  - by exists "".
  - destruct (is_id_char c) eqn:Hc.
    + exists post. rewrite string_app_cons, <-Hs. simpl. by rewrite Hc, Hall.
    + exists (String c s). simpl. by rewrite Hc.
Qed.

Lemma id_run_head (c : ascii) (s : string) :
  is_id_char c = true → id_run (String c s) ≠ "".
Proof. intros Hc. simpl. by rewrite Hc. Qed.

(** X1. [match] on a link gives the video id that follows the leftmost ["v="]
    which has one: the longest run of characters of the class, not empty. *)
Theorem match_video_id_Some (href g : string) :
  match_video_id href = Some g →
  ∃ pre post, href = pre +:+ "v=" +:+ g +:+ post
    ∧ g ≠ "" ∧ string_forallb is_id_char g = true
    ∧ head_is is_id_char post = false
    ∧ ∀ pre' c rest, href = pre' +:+ "v=" +:+ String c rest → is_id_char c = true →
        String.length pre ≤ String.length pre'.
Proof.
  induction href as [|c0 href IH].
  - done.
  - rewrite match_video_id_cons.
    destruct (match_here (String c0 href)) as [g'|] eqn:Hhere.
    + intros [= ->]. apply match_here_Some in Hhere as (rest & Hs & -> & Hne).
      destruct (id_run_split rest) as (post & Hrest & Hall & Hpost).
      exists "", post. split_and!; try done.
      * by rewrite Hs, Hrest at 1.
      * intros. simpl. lia.
    + intros Hg. destruct (IH Hg) as (pre & post & -> & Hne & Hall & Hpost & Hleft).
      exists (String c0 pre), post. split_and!; try done.
      intros [|c1 pre'] c rest Heq Hc.
      * exfalso. assert (match_here (String c0 (pre +:+ "v=" +:+ g +:+ post))
                         = Some (id_run (String c rest))) as Hm.
        { apply match_here_Some. exists (String c rest).
          split_and!; [done|done|by apply id_run_head]. }
        by rewrite Hm in Hhere.
      * simpl. rewrite string_app_cons in Heq. injection Heq as -> Heq.
        specialize (Hleft pre' c rest Heq Hc). lia.
Qed.

Lemma match_video_id_Some_witness :
  ∃ pre post, "/watch?list=PL1&v=abc-123_X&t=5s" = pre +:+ "v=" +:+ "abc-123_X" +:+ post
    ∧ "abc-123_X" ≠ "" ∧ string_forallb is_id_char "abc-123_X" = true
    ∧ head_is is_id_char post = false
    ∧ ∀ pre' c rest, "/watch?list=PL1&v=abc-123_X&t=5s" = pre' +:+ "v=" +:+ String c rest →
        is_id_char c = true → String.length pre ≤ String.length pre'.
Proof.
  apply (match_video_id_Some "/watch?list=PL1&v=abc-123_X&t=5s" "abc-123_X"). reflexivity.
Defined.

(** X2. [match] gives [null] exactly on the links in which no ["v="] is
    followed by a character of the class. *)
Theorem match_video_id_None (href : string) :
  match_video_id href = None ↔
  ∀ pre c rest, is_id_char c = true → href ≠ pre +:+ "v=" +:+ String c rest.
Proof.
  split.
  - intros Hnone pre c rest Hc ->.
    induction pre as [|c0 pre IH].
    + assert (match_here ("v=" +:+ String c rest) = Some (id_run (String c rest))) as Hm.
      { apply match_here_Some. exists (String c rest).
        split_and!; [done|done|by apply id_run_head]. }
      change ("" +:+ "v=" +:+ String c rest) with (String "v" ("=" +:+ String c rest)) in Hnone.
      rewrite match_video_id_cons in Hnone.
      change (String "v" ("=" +:+ String c rest)) with ("v=" +:+ String c rest) in Hnone.
      by rewrite Hm in Hnone.
    + apply IH. rewrite string_app_cons, match_video_id_cons in Hnone.
      by destruct (match_here _).
  - intros Hno. induction href as [|c0 href IH]; [done|].
    rewrite match_video_id_cons.
    destruct (match_here (String c0 href)) as [g|] eqn:Hhere.
    + exfalso. apply match_here_Some in Hhere as (rest & Hs & -> & Hne).
      destruct rest as [|c rest]; [done|].
      destruct (is_id_char c) eqn:Hc; [|by simpl in Hne; rewrite Hc in Hne].
      by apply (Hno "" c rest Hc).
    + apply IH. intros pre c rest Hc ->.
      by apply (Hno (String c0 pre) c rest Hc).
Qed.

(** ** Paths and ids as keys *)

Lemma pretty_go_digits (x : N) (s : string) :
  string_forallb is_digit s = true → string_forallb is_digit (pretty_N_go x s) = true.
Proof.
  revert s. induction (N.lt_wf_0 x) as [x _ IH]. intros s Hs.
  destruct (decide (x = 0)%N) as [->|Hx].
  - by rewrite pretty_N_go_0.
  - rewrite pretty_N_go_step by lia.
    apply IH; [apply N.div_lt; lia|]. simpl. by rewrite is_digit_pretty_char.
Qed.

Lemma pretty_nat_digits (i : nat) : string_forallb is_digit (pretty i) = true.
Proof.
  unfold pretty, pretty_nat, pretty, pretty_N. case_decide; [done|].
  by apply pretty_go_digits.
Qed.

Lemma pretty_nat_nonempty (i : nat) : pretty i ≠ "".
Proof.
  pose proof (pretty_N_starts_with_digit (N.of_nat i)) as H.
  unfold pretty at 1, pretty_nat. by destruct (pretty (N.of_nat i)).
Qed.

Lemma string_forallb_app (f : ascii → bool) (s t : string) :
  string_forallb f (s +:+ t) = string_forallb f s && string_forallb f t.
Proof.
  induction s as [|c s IH]; [done|].
  rewrite string_app_cons. simpl. by rewrite IH, andb_assoc.
Qed.

(** Two runs of characters of a class that does not hold the separator,
    each followed by the separator, are found in one way only. *)
Lemma separator_split (f : ascii → bool) (sep : ascii) (a b x y : string) :
  f sep = false →
  string_forallb f a = true → string_forallb f b = true →
  a +:+ String sep x = b +:+ String sep y → a = b ∧ x = y.
Proof.
  intros Hsep. revert b. induction a as [|c a IH]; intros [|c' b] Ha Hb Heq.
  - by injection Heq.
  - injection Heq as <- _. simpl in Hb. by rewrite Hsep in Hb.
  - injection Heq as -> _. simpl in Ha. by rewrite Hsep in Ha.
  - rewrite !string_app_cons in Heq. injection Heq as -> Heq.
    simpl in Ha, Hb. apply andb_true_iff in Ha as [_ Ha], Hb as [_ Hb].
    destruct (IH b Ha Hb Heq) as [-> ->]. done.
Qed.

Lemma levels_onto_head (l : list nat) : ∃ q, levels_onto l "/" = String "/" q.
Proof. destruct l as [|i l]; simpl; eauto. Qed.

Lemma path_string_inj (l1 l2 : list nat) : path_string l1 = path_string l2 → l1 = l2.
Proof.
  unfold path_string. revert l2.
  induction l1 as [|i l1 IH]; intros [|j l2] Heq; simpl in Heq.
  - done.
  - injection Heq as Heq. destruct (pretty_nat_nonempty j).
    by destruct (pretty j).
  - injection Heq as Heq. destruct (pretty_nat_nonempty i).
    by destruct (pretty i).
  - injection Heq as Heq.
    destruct (levels_onto_head l1) as [q1 H1], (levels_onto_head l2) as [q2 H2].
    rewrite H1, H2 in Heq.
    apply (separator_split is_digit "/") in Heq as [Hij Hq];
      [|done|apply pretty_nat_digits..].
    apply (inj pretty) in Hij as ->. f_equal. apply IH. by rewrite H1, H2, Hq.
Qed.

Lemma rev_eq (r1 r2 : ref) : rev r1 = rev r2 → r1 = r2.
Proof. intros H. by rewrite <-(rev_involutive r1), H, rev_involutive. Qed.

(** X4. In a document, two elements that [derivePath] gives the same path
    are the same element. *)
Theorem derivePath_injective (d : dom) (v1 v2 : Video) :
  in_document d →
  is_Some (element_at d (element v1)) → is_Some (element_at d (element v2)) →
  derivePath d v1 = derivePath d v2 → element v1 = element v2.
Proof.
  intros Hd H1 H2. rewrite !derivePath_document by done.
  intros [= Heq%path_string_inj]. by apply rev_eq.
Qed.

Lemma derivePath_injective_witness :
  element (set_viewed (VBoolean true) (video_of first_entry "block"))
  = element (video_of first_entry "").
Proof.
  apply (derivePath_injective home_page).
  - by eexists.
  - by eexists.
  - by eexists.
  - reflexivity.
Defined.

Lemma id_run_chars (s : string) : string_forallb is_id_char (id_run s) = true.
Proof. by destruct (id_run_split s) as (_ & _ & ? & _). Qed.

Lemma match_video_id_chars (href g : string) :
  match_video_id href = Some g → string_forallb is_id_char g = true.
Proof.
  induction href as [|c href IH]; [done|]. rewrite match_video_id_cons.
  destruct (match_here (String c href)) as [g'|] eqn:Hhere; [|done].
  intros [= ->]. apply match_here_Some in Hhere as (rest & _ & -> & _).
  apply id_run_chars.
Qed.

Lemma deriveURL_id_chars (d : dom) (v : Video) (u : string) :
  deriveURL d v = Normal (Some u) → string_forallb is_id_char u = true.
Proof.
  unfold deriveURL. destruct (querySelector d (element v) url_selectors) as [[a|]|]; try done.
  simpl. destruct (element_at d a) as [e|]; [|done].
  destruct (getAttribute e "href") as [href|]; [|done].
  intros [= H]. by eapply match_video_id_chars.
Qed.

(** The path and the video id are read back from an id in one way. *)
Lemma id_split (l1 l2 : list nat) (u1 u2 : string) :
  string_forallb is_id_char u1 = true → string_forallb is_id_char u2 = true →
  path_string l1 +:+ u1 = path_string l2 +:+ u2 → l1 = l2 ∧ u1 = u2.
Proof.
  unfold path_string. revert l2.
  induction l1 as [|i l1 IH]; intros [|j l2] Hu1 Hu2 Heq; simpl in Heq.
  - by injection Heq.
  - injection Heq as Heq. exfalso. change ("" +:+ u1) with u1 in Heq.
    rewrite Heq, !string_forallb_app in Hu1.
    destruct (levels_onto_head l2) as [q2 H2]. rewrite H2 in Hu1. simpl in Hu1.
    by rewrite !andb_false_r in Hu1.
  - injection Heq as Heq. exfalso. change ("" +:+ u2) with u2 in Heq.
    rewrite <-Heq, !string_forallb_app in Hu2.
    destruct (levels_onto_head l1) as [q1 H1]. rewrite H1 in Hu2. simpl in Hu2.
    by rewrite !andb_false_r in Hu2.
  - injection Heq as Heq. rewrite !string_app_assoc in Heq.
    destruct (levels_onto_head l1) as [q1 H1], (levels_onto_head l2) as [q2 H2].
    rewrite H1, H2, !string_app_cons in Heq.
    apply (separator_split is_digit "/") in Heq as [Hij Hq];
      [|done|apply pretty_nat_digits..].
    apply (inj pretty) in Hij as ->.
    destruct (IH l2 Hu1 Hu2) as [-> ->]; [|done].
    by rewrite H1, H2, !string_app_cons, Hq.
Qed.

(** X5. On one page the id is a key: two videos that [fetchID] gives the
    same string wrap the same element, and the string is that element's
    path followed by the video id of its link. *)
Theorem fetchID_key (d : dom) (v1 v2 v1' v2' : Video) (k : string) :
  in_document d →
  fetchID d v1 = Normal (v1', VString k) → fetchID d v2 = Normal (v2', VString k) →
  element v1 = element v2
  ∧ ∃ u, deriveURL d v1 = Normal (Some u) ∧ deriveURL d v2 = Normal (Some u)
      ∧ k = path_string (rev (element v1)) +:+ u.
Proof.
  intros Hd. unfold fetchID.
  destruct (deriveURL d v1) as [[u1|]|] eqn:Hu1;
    destruct (deriveURL d v2) as [[u2|]|] eqn:Hu2;
    try by (simpl; destruct (derivePath d v1); destruct (derivePath d v2)).
  assert (∀ v u, deriveURL d v = Normal (Some u) → is_Some (element_at d (element v))) as Hel.
  { intros v u. unfold deriveURL, querySelector, descendants, element_at.
    by destruct (resolve d (element v)) as [[|[]]|]. }
  rewrite !derivePath_document by eauto. simpl.
  pose proof (deriveURL_nonempty _ _ _ Hu1) as Hn1.
  pose proof (deriveURL_nonempty _ _ _ Hu2) as Hn2.
  destruct (path_string_slashes (rev (element v1))) as (Hp1 & _).
  destruct (path_string_slashes (rev (element v2))) as (Hp2 & _).
  rewrite !legal_id_both by done. intros [= _ <-] [= _ Heq].
  apply id_split in Heq as [Hr ->]; [|by eapply deriveURL_id_chars..].
  apply rev_eq in Hr. split; [done|]. by exists u1.
Qed.

Lemma fetchID_key_witness :
  element (video_of first_entry "block") = element (set_viewed (VBoolean true) (video_of first_entry ""))
  ∧ ∃ u, deriveURL home_page (video_of first_entry "block") = Normal (Some u)
      ∧ deriveURL home_page (set_viewed (VBoolean true) (video_of first_entry "")) = Normal (Some u)
      ∧ "/0/2/0/AAA111" = path_string (rev (element (video_of first_entry "block"))) +:+ u.
Proof.
  eapply (fetchID_key home_page).
  - by eexists.
  - reflexivity.
  - reflexivity.
Defined.

(** ** Exceptions *)

(** X3. When the hyperlink that [deriveURL] finds has no [href] attribute,
    [deriveURL] raises a [TypeError] ([match] is called on [null]), and so
    do [fetchID] and, on a video without a memoised id, [getID]. *)
Theorem missing_href_throws (d : dom) (v : Video) (a : ref) (e : ElementData) :
  querySelector d (element v) url_selectors = Normal (Some a) →
  element_at d a = Some e → getAttribute e "href" = None →
  deriveURL d v = TypeError ∧ fetchID d v = TypeError
  ∧ (truthy (id v) = false → getID d v = TypeError).
Proof.
  intros Hq He Hhref.
  assert (deriveURL d v = TypeError) as Hurl.
  { unfold deriveURL. rewrite Hq. simpl. by rewrite He, Hhref. }
  assert (fetchID d v = TypeError) as Hid by (unfold fetchID; by rewrite Hurl).
  split_and!; try done. intros Hv. unfold getID. by rewrite Hv.
Qed.

Lemma missing_href_throws_witness :
  let page := page_of [Element (tag "div" "" [] [] "" "") [
                Element (tag "a" "" ["yt-lockup-view-model__title"] [("title", "T")] "" "") []]] in
  deriveURL page (video_of first_entry "") = TypeError
  ∧ fetchID page (video_of first_entry "") = TypeError
  ∧ getID page (video_of first_entry "") = TypeError.
Proof.
  intros page.
  destruct (missing_href_throws page (video_of first_entry "") [0; 0; 2; 0]
              (tag "a" "" ["yt-lockup-view-model__title"] [("title", "T")] "" "")
              eq_refl eq_refl eq_refl) as (Hurl & Hfetch & Hget).
  split_and!; [exact Hurl|exact Hfetch|]. apply Hget. reflexivity.
Defined.

(** X6. On an element of a tree that is attached to no document,
    [derivePath] raises a [TypeError] (it reads [id] on the [null] parent of
    the root), and so do [fetchID] and, on a video without a memoised id,
    [getID]. *)
Theorem detached_element_throws (top : node) (v : Video) :
  is_Some (element_at (Detached top) (element v)) →
  derivePath (Detached top) v = TypeError
  ∧ fetchID (Detached top) v = TypeError
  ∧ (truthy (id v) = false → getID (Detached top) v = TypeError).
Proof.
  intros Hel. pose proof (derivePath_detached top v Hel) as Hpath.
  assert (fetchID (Detached top) v = TypeError) as Hid.
  { unfold fetchID. rewrite Hpath. by destruct (deriveURL (Detached top) v). }
  split_and!; try done. intros Hv. unfold getID. by rewrite Hv.
Qed.

Lemma detached_element_throws_witness :
  derivePath (Detached (lockup "" "/watch?v=abc" "/watch?v=abc" [])) (video_of [] "") = TypeError
  ∧ fetchID (Detached (lockup "" "/watch?v=abc" "/watch?v=abc" [])) (video_of [] "") = TypeError
  ∧ getID (Detached (lockup "" "/watch?v=abc" "/watch?v=abc" [])) (video_of [] "") = TypeError.
Proof.
  destruct (detached_element_throws (lockup "" "/watch?v=abc" "/watch?v=abc" [])
              (video_of [] "")) as (Hpath & Hfetch & Hget).
  { by eexists. }
  split_and!; [exact Hpath|exact Hfetch|]. apply Hget. reflexivity.
Defined.

(** ** Memoised ids *)

(** X7. Once [getID] has returned a truthy id, every later [getID] on the
    video returns the same id and leaves the video as it is, whatever the
    page has become. *)
Theorem getID_stable (d d' : dom) (v v' : Video) (x : value) :
  getID d v = Normal (v', x) → truthy x = true →
  id v' = x ∧ getID d' v' = Normal (v', x).
Proof.
  intros Hget Hx.
  assert (id v' = x) as Hid.
  { unfold getID in Hget. destruct (truthy (id v)) eqn:Hv.
    - by injection Hget as <- <-.
    - unfold fetchID in Hget.
      destruct (deriveURL d v) as [url|]; [|done].
      destruct (derivePath d v) as [path|]; [|done].
      simpl in Hget. by injection Hget as <- <-. }
  split; [done|]. unfold getID. by rewrite Hid, Hx.
Qed.

Lemma getID_stable_witness :
  id (set_id (VString "/0/2/0/AAA111") (video_of first_entry "block")) = VString "/0/2/0/AAA111"
  ∧ getID (Detached (Text "gone")) (set_id (VString "/0/2/0/AAA111") (video_of first_entry "block"))
    = Normal (set_id (VString "/0/2/0/AAA111") (video_of first_entry "block"),
              VString "/0/2/0/AAA111").
Proof.
  apply (getID_stable home_page (Detached (Text "gone")) (video_of first_entry "block")).
  - reflexivity.
  - reflexivity.
Defined.

(** ** More on [hide] and [show] *)

Lemma element_below_alter_ne (f : ElementData → ElementData) (p p' : list nat) (n : node) :
  p ≠ p' → element_below (TNode (alter_node f p n)) p' = element_below (TNode n) p'.
Proof.
  revert p' n. induction p as [|i p IH]; intros [|j q] [e kids|s] Hne; try done.
  unfold element_below in *. simpl.
  destruct (decide (i = j)) as [->|Hij].
  - rewrite list_lookup_alter_eq. destruct (kids !! j) as [m|]; [|done].
    simpl. apply IH. congruence.
  - by rewrite list_lookup_alter_ne.
Qed.

Lemma element_at_alter_ne (f : ElementData → ElementData) (d : dom) (r r' : ref) :
  r ≠ r' → element_at (alter_dom f r d) r' = element_at d r'.
Proof.
  intros Hne. assert (rev r ≠ rev r') as Hrev by (by intros ?%rev_eq).
  rewrite !element_at_below. destruct d as [kids|n]; simpl.
  - destruct (rev r) as [|i p]; [done|]. destruct (rev r') as [|j q]; [done|].
    unfold element_below. simpl.
    destruct (decide (i = j)) as [->|Hij].
    + rewrite list_lookup_alter_eq. destruct (kids !! j) as [m|]; [|done].
      simpl. apply element_below_alter_ne. congruence.
    + by rewrite list_lookup_alter_ne.
  - by apply element_below_alter_ne.
Qed.

(** X8. [hide] writes to the wrapped element only, and only its [display]:
    every other element of the page is as it was. *)
Theorem hide_frame (d d1 : dom) (v : Video) :
  hide d v = Normal d1 →
  (∃ e, element_at d (element v) = Some e
      ∧ element_at d1 (element v) = Some (set_display "none" e))
  ∧ ∀ r, r ≠ element v → element_at d1 r = element_at d r.
Proof.
  unfold hide, write_display.
  destruct (element_at d (element v)) as [e|] eqn:He; [|done].
  intros [= <-]. split.
  - exists e. split; [done|]. by rewrite element_at_alter, He.
  - intros r Hr. by apply element_at_alter_ne.
Qed.

Lemma hide_frame_witness :
  element_at (alter_dom (set_display "none") first_entry home_page) first_entry
  = set_display "none" <$> element_at home_page first_entry
  ∧ element_at (alter_dom (set_display "none") first_entry home_page) second_entry
    = element_at home_page second_entry.
Proof.
  destruct (hide_frame home_page (alter_dom (set_display "none") first_entry home_page)
              (video_of first_entry "block") eq_refl) as [(e & He & He1) Hothers].
  split.
  - change (element (video_of first_entry "block")) with first_entry in He, He1.
    by rewrite He1, He.
  - by apply Hothers.
Defined.

(** X9. [hide] and [show] are idempotent: on the page that one of them
    returned, the same call returns that page again. *)
Theorem hide_show_idempotent (d d1 : dom) (v : Video) :
  (hide d v = Normal d1 → hide d1 v = Normal d1)
  ∧ (show d v = Normal d1 → show d1 v = Normal d1).
Proof.
  assert (∀ s, write_display d (element v) s = Normal d1 →
               write_display d1 (element v) s = Normal d1) as Hwrite.
  { intros s. unfold write_display.
    destruct (element_at d (element v)) as [e|] eqn:He; [|done].
    intros [= <-]. rewrite element_at_alter, He. simpl. f_equal.
    apply alter_dom_id. intros e'. rewrite element_at_alter, He.
    by intros [= <-]. }
  split; apply Hwrite.
Qed.

Lemma hide_show_idempotent_witness :
  hide (alter_dom (set_display "none") first_entry home_page) (video_of first_entry "block")
  = Normal (alter_dom (set_display "none") first_entry home_page)
  ∧ show home_page (video_of first_entry "block") = Normal home_page.
Proof.
  destruct (hide_show_idempotent home_page
              (alter_dom (set_display "none") first_entry home_page)
              (video_of first_entry "block")) as [Hhide _].
  destruct (hide_show_idempotent home_page home_page (video_of first_entry "block"))
    as [_ Hshow].
  split.
  - apply Hhide. reflexivity.
  - apply Hshow. reflexivity.
Defined.

(** X10. A [Video] built on an element that another one has hidden captures
    ["none"]: its [show] leaves the element hidden, and only the [show] of
    the video that hid it gives the page back. *)
Theorem show_of_late_video (d d1 : dom) (el : ref) (v1 : Video) :
  new_Video d el = Normal v1 → hide d v1 = Normal d1 →
  ∃ v2, new_Video d1 el = Normal v2 ∧ display v2 = "none"
    ∧ show d1 v2 = Normal d1 ∧ read_display d1 el = Normal "none"
    ∧ show d1 v1 = Normal d.
Proof.
  unfold new_Video. destruct (read_display d el) as [s|] eqn:Hs; [|done].
  intros [= <-] Hhide.
  destruct (hide_show d (video_of el s) Hs) as (d1' & Hhide' & Hnone & Hshow).
  unfold video_of in *. simpl in *.
  rewrite Hhide in Hhide'. injection Hhide' as <-.
  rewrite Hnone. eexists. split_and!; try done.
  unfold show, write_display in *. simpl in *.
  unfold read_display in Hnone.
  destruct (element_at d1 el) as [e|] eqn:He; [|done]. f_equal.
  apply alter_dom_id. intros e'. rewrite He. intros [= <-].
  injection Hnone as <-. apply set_display_same.
Qed.

Lemma show_of_late_video_witness :
  ∃ v2, new_Video (alter_dom (set_display "none") first_entry home_page) first_entry = Normal v2
    ∧ display v2 = "none"
    ∧ show (alter_dom (set_display "none") first_entry home_page) v2
      = Normal (alter_dom (set_display "none") first_entry home_page)
    ∧ read_display (alter_dom (set_display "none") first_entry home_page) first_entry
      = Normal "none"
    ∧ show (alter_dom (set_display "none") first_entry home_page) (video_of first_entry "block")
      = Normal home_page.
Proof.
  apply (show_of_late_video home_page _ first_entry (video_of first_entry "block")).
  - reflexivity.
  - reflexivity.
Defined.

(** ** What the getters read of a page *)

Lemma children_erase (t : target) :
  children (erase_target t) = erase_display <$> children t.
Proof. by destruct t as [|[|]]. Qed.

Lemma root_of_erase (d : dom) : root_of (erase_dom d) = erase_target (root_of d).
Proof. by destruct d. Qed.

Lemma resolve_erase (d : dom) (r : ref) :
  resolve (erase_dom d) r = erase_target <$> resolve d r.
Proof.
  induction r as [|k up IH]; simpl.
  - by rewrite root_of_erase.
  - rewrite IH. destruct (resolve d up) as [t|]; [|done]. simpl.
    rewrite children_erase, list_lookup_fmap. by destruct (children t !! k).
Qed.

Lemma id_of_erase (t : target) : id_of (erase_target t) = id_of t.
Proof. by destruct t as [|[|]]. Qed.

Lemma element_at_erase (d : dom) (r : ref) :
  element_at (erase_dom d) r = set_display "" <$> element_at d r.
Proof.
  unfold element_at. rewrite resolve_erase.
  by destruct (resolve d r) as [[|[|]]|].
Qed.

Lemma sibling_index_erase (d : dom) (r : ref) :
  sibling_index (erase_dom d) r = sibling_index d r.
Proof.
  rewrite !sibling_index_length. destruct r as [|k up]; [done|]. simpl.
  rewrite resolve_erase. destruct (resolve d up) as [t|]; [|done]. simpl.
  by rewrite children_erase, !length_take, length_fmap.
Qed.

Lemma derivePath_loop_erase (d : dom) (node : ref) (path : string) :
  derivePath_loop (erase_dom d) node path = derivePath_loop d node path.
Proof.
  revert path. induction node as [|k up IH]; intros path.
  - cbn [derivePath_loop]. rewrite resolve_erase.
    destruct (resolve d []) as [t|]; [|done].
    cbn [fmap option_fmap option_map]. rewrite id_of_erase. by destruct (id_of t).
  - cbn [derivePath_loop]. rewrite resolve_erase.
    destruct (resolve d (k :: up)) as [t|]; [|done].
    cbn [fmap option_fmap option_map]. rewrite id_of_erase, sibling_index_erase.
    destruct (id_of t); try done; apply IH.
Qed.

Lemma forest_erase (r : ref) (i : nat) (ks : list node) :
  Forall (λ n, ∀ r, subtree r (erase_display n) = erase_entry <$> subtree r n) ks →
  forest r i (erase_display <$> ks) = erase_entry <$> forest r i ks.
Proof.
  intros Hks. revert i. induction Hks as [|k ks Hk _ IH]; intros i; simpl; [done|].
  by rewrite fmap_app, Hk, IH.
Qed.

Lemma subtree_erase (n : node) :
  ∀ r, subtree r (erase_display n) = erase_entry <$> subtree r n.
Proof.
  induction n as [s|e kids IH] using node_ind; intros r; [done|].
  cbn [erase_display]. rewrite !subtree_element, fmap_cons. f_equal.
  by apply forest_erase.
Qed.

Lemma descendants_erase (d : dom) (r : ref) :
  descendants (erase_dom d) r =
  match descendants d r with
  | Normal ds => Normal (erase_entry <$> ds)
  | TypeError => TypeError
  end.
Proof.
  unfold descendants. rewrite resolve_erase.
  destruct (resolve d r) as [[|[e kids|]]|]; simpl; try done.
  f_equal. apply forest_erase, Forall_forall. intros n _. apply subtree_erase.
Qed.

Lemma querySelector_erase (d : dom) (r : ref) (sels : list selector) :
  querySelector (erase_dom d) r sels = querySelector d r sels.
Proof.
  unfold querySelector. rewrite descendants_erase.
  destruct (descendants d r) as [ds|]; [|done]. simpl. f_equal.
  induction ds as [|[a e] ds IH]; [done|]. simpl.
  change (matches_any sels (set_display "" e)) with (matches_any sels e).
  case_decide; [done|].
  change (list_fmap _ _ erase_entry ds) with (erase_entry <$> ds).
  destruct (list_find _ (erase_entry <$> ds)) as [[? []]|], (list_find _ ds) as [[? []]|];
    simpl in *; congruence.
Qed.

Lemma querySelectorAll_erase (d : dom) (r : ref) (sels : list selector) :
  querySelectorAll (erase_dom d) r sels = querySelectorAll d r sels.
Proof.
  unfold querySelectorAll. rewrite descendants_erase.
  destruct (descendants d r) as [ds|]; [|done]. simpl. f_equal.
  induction ds as [|[a e] ds IH]; [done|].
  rewrite fmap_cons, !filter_cons. simpl.
  change (matches_any sels (set_display "" e)) with (matches_any sels e).
  case_decide; [|done]. rewrite !fmap_cons. by f_equal.
Qed.

Lemma textContent_element (e : ElementData) (kids : list node) :
  textContent (Element e kids) = textContent_all kids.
Proof. simpl. induction kids as [|k ks IH]; simpl; [done|]. by rewrite IH. Qed.

Lemma textContent_erase (n : node) : textContent (erase_display n) = textContent n.
Proof.
  induction n as [s|e kids IH] using node_ind; [done|].
  cbn [erase_display]. rewrite !textContent_element.
  induction IH as [|k ks Hk _ IHks]; [done|].
  rewrite fmap_cons. cbn [textContent_all]. by rewrite Hk, IHks.
Qed.

Lemma deriveURL_erase (d : dom) (v : Video) : deriveURL (erase_dom d) v = deriveURL d v.
Proof.
  unfold deriveURL. rewrite querySelector_erase.
  destruct (querySelector d (element v) url_selectors) as [[a|]|]; try done.
  simpl. rewrite element_at_erase. by destruct (element_at d a).
Qed.

Lemma getViewed_erase (d : dom) (v : Video) (t : Z) :
  getViewed (erase_dom d) v t = getViewed d v t.
Proof.
  unfold getViewed. rewrite querySelector_erase.
  destruct (querySelector d (element v) bar_selectors) as [[a|]|]; try done.
  simpl. rewrite element_at_erase. by destruct (element_at d a).
Qed.

Lemma fetchID_erase (d : dom) (v : Video) : fetchID (erase_dom d) v = fetchID d v.
Proof.
  unfold fetchID, derivePath. by rewrite deriveURL_erase, derivePath_loop_erase.
Qed.

Lemma title_of_erase (e : ElementData) (kids : list node) :
  title_of (set_display "" e) (erase_display <$> kids) = title_of e kids.
Proof.
  unfold title_of.
  change (getAttribute (set_display "" e) "title") with (getAttribute e "title").
  change (Element (set_display "" e) (erase_display <$> kids))
    with (erase_display (Element e kids)).
  by rewrite textContent_erase.
Qed.

Lemma fetchTitle_erase (d : dom) (v : Video) : fetchTitle (erase_dom d) v = fetchTitle d v.
Proof.
  unfold fetchTitle, title_element. rewrite !querySelector_erase.
  destruct (querySelector d (element v) [title_selector]) as [[a|]|]; simpl; [| |done].
  - rewrite resolve_erase. destruct (resolve d a) as [[|[e kids|]]|]; try done.
    simpl. by rewrite title_of_erase.
  - destruct (querySelector d (element v) [lockup_title_selector]) as [[a|]|];
      simpl; [|done..].
    rewrite resolve_erase. destruct (resolve d a) as [[|[e kids|]]|]; try done.
    simpl. by rewrite title_of_erase.
Qed.

Lemma fmap_alter_absorb {A B} (f : A → B) (g : A → A) (i : nat) (l : list A) :
  (∀ x, f (g x) = f x) → f <$> alter g i l = f <$> l.
Proof.
  intros Hfg. revert i. induction l as [|x l IH]; intros [|i]; simpl; [done..| |].
  - by rewrite Hfg.
  - f_equal. apply IH.
Qed.

Lemma erase_alter_node (s : string) (p : list nat) (n : node) :
  erase_display (alter_node (set_display s) p n) = erase_display n.
Proof.
  revert n. induction p as [|i p IH]; intros [e kids|data]; try done.
  simpl. f_equal. by apply fmap_alter_absorb.
Qed.

Lemma erase_alter_dom (s : string) (r : ref) (d : dom) :
  erase_dom (alter_dom (set_display s) r d) = erase_dom d.
Proof.
  destruct d as [kids|n]; simpl.
  - destruct (rev r) as [|i p]; [done|]. simpl. f_equal.
    apply fmap_alter_absorb. intros n. apply erase_alter_node.
  - f_equal. apply erase_alter_node.
Qed.

(** X11. What the getters of a video return depends on no [display] value of
    the page: on two pages that differ in [display] values at most,
    [deriveURL], [derivePath], [getID], [getTitle] and [getViewed] give
    the same, for every video. *)
Theorem getters_ignore_display (d d' : dom) (v : Video) (threshold : Z) :
  same_but_display d d' →
  deriveURL d v = deriveURL d' v ∧ derivePath d v = derivePath d' v
  ∧ getID d v = getID d' v ∧ getTitle d v = getTitle d' v
  ∧ getViewed d v threshold = getViewed d' v threshold.
Proof.
  unfold same_but_display. intros Heq. split_and!.
  - by rewrite <-(deriveURL_erase d), <-(deriveURL_erase d'), Heq.
  - unfold derivePath.
    by rewrite <-(derivePath_loop_erase d), <-(derivePath_loop_erase d'), Heq.
  - unfold getID. case_match; [done|].
    by rewrite <-(fetchID_erase d), <-(fetchID_erase d'), Heq.
  - unfold getTitle. case_match; [done|].
    by rewrite <-(fetchTitle_erase d), <-(fetchTitle_erase d'), Heq.
  - by rewrite <-(getViewed_erase d), <-(getViewed_erase d'), Heq.
Qed.

Lemma getters_ignore_display_witness :
  deriveURL home_page (video_of first_entry "block")
  = deriveURL (alter_dom (set_display "none") second_entry home_page) (video_of first_entry "block")
  ∧ derivePath home_page (video_of first_entry "block")
    = derivePath (alter_dom (set_display "none") second_entry home_page) (video_of first_entry "block")
  ∧ getID home_page (video_of first_entry "block")
    = getID (alter_dom (set_display "none") second_entry home_page) (video_of first_entry "block")
  ∧ getTitle home_page (video_of first_entry "block")
    = getTitle (alter_dom (set_display "none") second_entry home_page) (video_of first_entry "block")
  ∧ getViewed home_page (video_of first_entry "block") 50
    = getViewed (alter_dom (set_display "none") second_entry home_page) (video_of first_entry "block") 50.
Proof.
  apply (getters_ignore_display home_page _ (video_of first_entry "block") 50). reflexivity.
Defined.

(** X12. [hide] and [show] change nothing of what the getters return: after
    either, every video, the hidden one and the others, has the id, the
    title and the view state it had. *)
Theorem hide_show_keep_getters (d d1 : dom) (v w : Video) (threshold : Z) :
  hide d v = Normal d1 ∨ show d v = Normal d1 →
  getID d1 w = getID d w ∧ getTitle d1 w = getTitle d w
  ∧ getViewed d1 w threshold = getViewed d w threshold.
Proof.
  intros Hd1. assert (same_but_display d1 d) as Hsame.
  { unfold same_but_display, hide, show, write_display in *.
    destruct (element_at d (element v)); [|by destruct Hd1].
    destruct Hd1 as [[= <-]|[= <-]]; apply erase_alter_dom. }
  unfold same_but_display in Hsame. split_and!.
  - unfold getID. case_match; [done|].
    by rewrite <-(fetchID_erase d1), <-(fetchID_erase d), Hsame.
  - unfold getTitle. case_match; [done|].
    by rewrite <-(fetchTitle_erase d1), <-(fetchTitle_erase d), Hsame.
  - by rewrite <-(getViewed_erase d1), <-(getViewed_erase d), Hsame.
Qed.

Lemma hide_show_keep_getters_witness :
  getID (alter_dom (set_display "none") first_entry home_page) (video_of first_entry "block")
  = getID home_page (video_of first_entry "block")
  ∧ getTitle (alter_dom (set_display "none") first_entry home_page) (video_of first_entry "block")
    = getTitle home_page (video_of first_entry "block")
  ∧ getViewed (alter_dom (set_display "none") first_entry home_page) (video_of first_entry "block") 50
    = getViewed home_page (video_of first_entry "block") 50.
Proof.
  apply (hide_show_keep_getters home_page _ (video_of first_entry "block")).
  left. reflexivity.
Defined.

(** ** More on [getViewed] *)

Lemma substring_app (s t : string) (k : nat) :
  String.substring 0 (String.length s + k) (s +:+ t) = s +:+ String.substring 0 k t.
Proof. induction s as [|c s IH]; [done|]. rewrite !string_app_cons. simpl. by rewrite IH. Qed.

Lemma slice_app (s t : string) : t ≠ "" → slice_0_m1 (s +:+ t) = s +:+ slice_0_m1 t.
Proof.
  intros Ht. unfold slice_0_m1. rewrite string_app_length.
  replace (String.length s + String.length t - 1)
    with (String.length s + (String.length t - 1)); [apply substring_app|].
  destruct t; [done|]. simpl. lia.
Qed.

Lemma slice_head (f : ascii → bool) (t : string) :
  head_is f t = false → head_is f (slice_0_m1 t) = false.
Proof.
  by destruct t as [|c [|c' t]].
Qed.

Lemma pretty_N_go_app (x : N) (s t : string) :
  pretty_N_go x (s +:+ t) = pretty_N_go x s +:+ t.
Proof.
  revert s. induction (N.lt_wf_0 x) as [x _ IH]. intros s.
  destruct (decide (x = 0)%N) as [->|Hx].
  - by rewrite !pretty_N_go_0.
  - rewrite (pretty_N_go_step x (s +:+ t)), (pretty_N_go_step x s) by lia.
    apply (IH (x `div` 10)%N ltac:(apply N.div_lt; lia)
             (String (pretty_N_char (x `mod` 10)) s)).
Qed.

Lemma parse_digits_stop (s : string) (acc : N) :
  head_is is_digit s = false → parse_digits s acc = acc.
Proof. destruct s as [|c s]; [done|]. simpl. by intros ->. Qed.

Lemma parseInt_pretty_app (n : N) (rest : string) :
  head_is is_digit rest = false → parseInt (pretty n +:+ rest) = Some (Z.of_N n).
Proof.
  intros Hrest. rewrite parseInt_digits.
  - do 2 f_equal. unfold pretty, pretty_N. case_decide as Hn.
    + subst. simpl. by rewrite parse_digits_stop.
    + rewrite <-pretty_N_go_app. change ("" +:+ rest) with rest.
      by rewrite parse_digits_pretty_go, parse_digits_stop.
  - pose proof (pretty_N_starts_with_digit n) as H. by destruct (pretty n).
Qed.

(** X13. Only the leading digits of the width count, and its last character
    is dropped whatever it is: a bar of width ["n"] followed by anything
    that is not empty and does not start with a digit (["%"], [".5%"],
    ["px"]) is viewed exactly when [threshold <= n]. *)
Theorem getViewed_leading_digits (d : dom) (v : Video) (bar : ref) (e : ElementData)
    (n : N) (rest : string) (threshold : Z) :
  querySelector d (element v) bar_selectors = Normal (Some bar) →
  element_at d bar = Some e →
  style_width (style e) = pretty n +:+ rest → rest ≠ "" → head_is is_digit rest = false →
  ∃ b, getViewed d v threshold = Normal (set_viewed (VBoolean b) v, VBoolean b)
    ∧ (b = true ↔ (threshold ≤ Z.of_N n)%Z).
Proof.
  intros Hq He Hw Hne Hrest.
  rewrite (getViewed_found d v threshold bar e Hq He), Hw.
  rewrite slice_app by done. rewrite parseInt_pretty_app by by apply slice_head.
  eexists. split; [done|]. simpl. apply Z.leb_le.
Qed.

Lemma getViewed_leading_digits_witness :
  ∃ b, getViewed (entry_page "12.5%") (video_of first_entry "block") 13
       = Normal (set_viewed (VBoolean b) (video_of first_entry "block"), VBoolean b)
    ∧ (b = true ↔ (13 ≤ Z.of_N 12)%Z).
Proof.
  apply (getViewed_leading_digits (entry_page "12.5%") (video_of first_entry "block") bar_ref
           (tag "div" "progress"
              ["style-scope"; "ytd-thumbnail-overlay-resume-playback-renderer"] [] "" "12.5%")
           12%N ".5%" 13%Z).
  - reflexivity.
  - reflexivity.
  - reflexivity.
  - done.
  - reflexivity.
Defined.

(** X14. A progress bar whose width has one character at most (the empty
    width of a bar without inline style, say) is not viewed, whatever the
    threshold, zero and negative ones included: what is left of the width
    reads as [NaN]. *)
Theorem getViewed_short_width (d : dom) (v : Video) (bar : ref) (e : ElementData)
    (threshold : Z) :
  querySelector d (element v) bar_selectors = Normal (Some bar) →
  element_at d bar = Some e →
  String.length (style_width (style e)) ≤ 1 →
  getViewed d v threshold = Normal (set_viewed (VBoolean false) v, VBoolean false).
Proof.
  intros Hq He Hw. rewrite (getViewed_found d v threshold bar e Hq He).
  destruct (style_width (style e)) as [|c [|c' w]]; [done|done|simpl in Hw; lia].
Qed.

Lemma getViewed_short_width_witness :
  getViewed (entry_page "") (video_of first_entry "block") (-5)
  = Normal (set_viewed (VBoolean false) (video_of first_entry "block"), VBoolean false).
Proof.
  apply (getViewed_short_width (entry_page "") (video_of first_entry "block") bar_ref
           (tag "div" "progress"
              ["style-scope"; "ytd-thumbnail-overlay-resume-playback-renderer"] [] "" "")).
  - reflexivity.
  - reflexivity.
  - simpl. lia.
Defined.

(** ** [fetchTitle] and [getTitle] *)

Lemma skip_space_head (s : string) : head_is is_space (skip_space s) = false.
Proof.
  induction s as [|c s IH]; [done|]. simpl.
  destruct (is_space c) eqn:Hc; [done|]. simpl. done.
Qed.

Lemma trim_end_head (f : ascii → bool) (s : string) :
  head_is f s = false → head_is f (trim_end s) = false.
Proof.
  destruct s as [|c s]; [done|]. simpl. intros Hc.
  destruct (trim_end s); [by destruct (is_space c)|done].
Qed.

Lemma trim_end_last (s : string) : last_is is_space (trim_end s) = false.
Proof.
  induction s as [|c s IH]; [done|]. simpl.
  destruct (trim_end s) as [|c' kept].
  - by destruct (is_space c) eqn:Hc; simpl.
  - done.
Qed.

Lemma trim_ends (s : string) :
  head_is is_space (trim s) = false ∧ last_is is_space (trim s) = false.
Proof.
  unfold trim. split; [apply trim_end_head, skip_space_head|apply trim_end_last].
Qed.

Lemma matches_any_single (s : selector) (e : ElementData) :
  matches_any [s] e = matches e s.
Proof. unfold matches_any. simpl. by rewrite orb_false_r. Qed.

(** X15. [fetchTitle] tries its two selectors in turn. When an element of
    the subtree matches [#video-title[title]], the first such element in
    document order is read, also when a link of class
    [yt-lockup-view-model__title] comes before it; only when none does is
    the first such link read. *)
Theorem fetchTitle_precedence (d : dom) (v : Video) (ds : list (ref * ElementData)) :
  descendants d (element v) = Normal ds →
  (∀ i a e, ds !! i = Some (a, e) → matches e title_selector = true →
     (∀ j x, ds !! j = Some x → j < i → matches (snd x) title_selector = false) →
     title_element d v = Normal (Some a))
  ∧ ((∀ x, x ∈ ds → matches (snd x) title_selector = false) →
     title_element d v = querySelector d (element v) [lockup_title_selector]).
Proof.
  intros Hd. split.
  - intros i a e Hi Hm Hfirst.
    assert (querySelector d (element v) [title_selector] = Normal (Some a)) as Hq.
    { apply (querySelector_first _ _ _ _ ds Hd). exists i, e.
      split_and!; [done|by rewrite matches_any_single|].
      intros j x Hj Hlt. rewrite matches_any_single. eauto. }
    unfold title_element. by rewrite Hq.
  - intros Hnone. unfold title_element.
    destruct (querySelector d (element v) [title_selector]) as [[a|]|] eqn:Hq; simpl.
    + apply (querySelector_first _ _ _ _ ds Hd) in Hq as (i & e & Hi & Hm & _).
      apply list_elem_of_lookup_2 in Hi. apply Hnone in Hi. simpl in Hi.
      rewrite matches_any_single in Hm. congruence.
    + done.
    + unfold querySelector in *. by rewrite Hd in Hq.
Qed.

Lemma fetchTitle_precedence_witness :
  let page := page_of [Element (tag "div" "" [] [] "" "") [
                Element (tag "a" "" ["yt-lockup-view-model__title"] [] "" "") [Text "new"];
                Element (tag "h3" "video-title" [] [("title", "old")] "" "") []]] in
  title_element page (video_of first_entry "") = Normal (Some [1; 0; 2; 0])
  ∧ fetchTitle page (video_of first_entry "")
    = Normal (set_title (VString "old") (video_of first_entry ""), VString "old").
Proof.
  intros page. split; [|reflexivity].
  destruct (fetchTitle_precedence page (video_of first_entry "") _ eq_refl) as [Hfirst _].
  apply (Hfirst 1 [1; 0; 2; 0] (tag "h3" "video-title" [] [("title", "old")] "" "")).
  - reflexivity.
  - reflexivity.
  - intros j x Hj Hlt. assert (j = 0) as -> by lia. by injection Hj as <-.
Defined.

Lemma title_element_sound (d : dom) (v : Video) (a : ref) :
  title_element d v = Normal (Some a) → is_Some (element_at d a).
Proof.
  unfold title_element.
  destruct (querySelector d (element v) [title_selector]) as [[a'|]|] eqn:Hq; simpl.
  - intros [= ->]. apply querySelector_sound in Hq as (e & He & _). eauto.
  - intros Hq'. apply querySelector_sound in Hq' as (e & He & _). eauto.
  - done.
Qed.

Lemma title_of_cases (e : ElementData) (kids : list node) :
  ∃ s, title_of e kids = VString s
    ∧ (∀ t, getAttribute e "title" = Some t → t ≠ "" → s = t)
    ∧ (getAttribute e "title" = None ∨ getAttribute e "title" = Some "" →
       s = trim (textContent (Element e kids))
       ∧ head_is is_space s = false ∧ last_is is_space s = false).
Proof.
  unfold title_of, js_or.
  destruct (getAttribute e "title") as [t|]; cbn [of_option truthy].
  - destruct (String.eqb_spec t "") as [->|Hne]; cbn [negb].
    + eexists. split_and!; [done|by intros ? [= <-]|].
      intros _. split; [done|apply trim_ends].
    + exists t. split_and!; [done|by intros ? [= <-]|]. by intros [|[= ->]].
  - eexists. split_and!; [done|done|]. intros _. split; [done|apply trim_ends].
Qed.

(** X16. When a title element is found, [fetchTitle] stores and returns a
    string: the [title] attribute when there is one and it is not empty,
    and otherwise the text of the element without white space at either
    end. When none is found, it returns [undefined] and leaves the video,
    its memoised title included, as it was. *)
Theorem fetchTitle_result (d : dom) (v : Video) (found : option ref) :
  title_element d v = Normal found →
  match found with
  | None => fetchTitle d v = Normal (v, VUndefined)
  | Some a =>
      ∃ e kids s, resolve d a = Some (TNode (Element e kids))
        ∧ fetchTitle d v = Normal (set_title (VString s) v, VString s)
        ∧ (∀ t, getAttribute e "title" = Some t → t ≠ "" → s = t)
        ∧ (getAttribute e "title" = None ∨ getAttribute e "title" = Some "" →
           s = trim (textContent (Element e kids))
           ∧ head_is is_space s = false ∧ last_is is_space s = false)
  end.
Proof.
  intros Hfound. unfold fetchTitle. rewrite Hfound. cbn [bind].
  destruct found as [a|]; [|done].
  destruct (title_element_sound d v a Hfound) as [e0 He]. unfold element_at in He.
  destruct (resolve d a) as [[|[e kids|]]|] eqn:Hr; try done.
  destruct (title_of_cases e kids) as (s & Hs & Hattr & Htext).
  exists e, kids, s. rewrite Hs. by cbn [title set_title].
Qed.

Lemma fetchTitle_result_witness :
  fetchTitle home_page (video_of first_entry "block")
  = Normal (set_title (VString "A title") (video_of first_entry "block"), VString "A title")
  ∧ fetchTitle mixed_page (video_of first_entry "") = Normal (video_of first_entry "", VUndefined).
Proof.
  split.
  - destruct (fetchTitle_result home_page (video_of first_entry "block")
                (Some [1; 0; 2; 0]) eq_refl) as (e & kids & s & Hr & Hfetch & _ & Htext).
    injection Hr as <- <-. destruct (Htext (or_introl eq_refl)) as (-> & _).
    exact Hfetch.
  - apply (fetchTitle_result mixed_page (video_of first_entry "") None). reflexivity.
Defined.

Lemma fetchTitle_cases (d : dom) (v v' : Video) (x : value) :
  fetchTitle d v = Normal (v', x) →
  (x = VUndefined ∧ v' = v) ∨ (v' = set_title x v).
Proof.
  unfold fetchTitle. destruct (title_element d v) as [[a|]|]; cbn [bind]; [|by left; simplify_eq|done].
  destruct (resolve d a) as [[|[e kids|]]|]; try done.
  intros [= <- <-]. by right.
Qed.

(** X17. [getTitle] returns a truthy memoised title as it is, on any page.
    A title that came out empty is not kept as final: the next [getTitle]
    is [fetchTitle] again. *)
Theorem getTitle_memo (d d' : dom) (v v' : Video) (x : value) :
  getTitle d v = Normal (v', x) →
  (truthy x = true → title v' = x ∧ getTitle d' v' = Normal (v', x))
  ∧ (x = VString "" → getTitle d' v' = fetchTitle d' v').
Proof.
  intros Hget. unfold getTitle in Hget. split.
  - intros Hx. assert (title v' = x) as Ht.
    { destruct (truthy (title v)) eqn:Hv; [by injection Hget as <- <-|].
      apply fetchTitle_cases in Hget as [[-> _]| ->]; done. }
    split; [done|]. unfold getTitle. by rewrite Ht, Hx.
  - intros ->. destruct (truthy (title v)) eqn:Hv.
    { injection Hget as <- Ht. by rewrite Ht in Hv. }
    apply fetchTitle_cases in Hget as [[? _]| ->]; [done|].
    by unfold getTitle.
Qed.

Lemma getTitle_memo_witness :
  (title (set_title (VString "A title") (video_of first_entry "block")) = VString "A title"
   ∧ getTitle mixed_page (set_title (VString "A title") (video_of first_entry "block"))
     = Normal (set_title (VString "A title") (video_of first_entry "block"), VString "A title"))
  ∧ getTitle home_page (set_title (VString "") (video_of first_entry ""))
    = fetchTitle home_page (set_title (VString "") (video_of first_entry "")).
Proof.
  destruct (getTitle_memo home_page mixed_page (video_of first_entry "block")
              (set_title (VString "A title") (video_of first_entry "block"))
              (VString "A title") eq_refl) as [Hkept _].
  destruct (getTitle_memo untitled_page home_page (video_of first_entry "")
              (set_title (VString "") (video_of first_entry ""))
              (VString "") eq_refl) as [_ Hagain].
  split.
  - apply Hkept. reflexivity.
  - apply Hagain. reflexivity.
Defined.

(** ** Extraction *)

Lemma mapM_app {A B} (f : A → completion B) (l1 l2 : list A) :
  mapM f (l1 ++ l2) =
  let* ys1 := mapM f l1 in
  let* ys2 := mapM f l2 in
  Normal (ys1 ++ ys2).
Proof.
  induction l1 as [|a l1 IH]; simpl.
  - by destruct (mapM f l2).
  - destruct (f a) as [b|]; [|done]. simpl. rewrite IH.
    destruct (mapM f l1) as [ys1|]; [|done]. simpl. by destruct (mapM f l2).
Qed.

Lemma keep_viewed_app (d : dom) (t : Z) (l1 l2 : list Video) :
  Extractor.keep_viewed d t (l1 ++ l2) =
  let* vs1 := Extractor.keep_viewed d t l1 in
  let* vs2 := Extractor.keep_viewed d t l2 in
  Normal (vs1 ++ vs2).
Proof.
  induction l1 as [|v l1 IH]; simpl.
  - by destruct (Extractor.keep_viewed d t l2).
  - destruct (getViewed d v t) as [[v' seen]|]; [|done]. simpl. rewrite IH.
    destruct (Extractor.keep_viewed d t l1) as [vs1|]; [|done]. simpl.
    destruct (Extractor.keep_viewed d t l2) as [vs2|]; [|done]. simpl.
    by destruct (truthy seen).
Qed.

Lemma getViewed_cases (d : dom) (v v' : Video) (t : Z) (x : value) :
  getViewed d v t = Normal (v', x) →
  (v' = v ∧ x = VUndefined) ∨ ∃ b, v' = set_viewed (VBoolean b) v ∧ x = VBoolean b.
Proof.
  unfold getViewed.
  destruct (querySelector d (element v) bar_selectors) as [[bar|]|]; cbn [bind]; [| |done].
  - destruct (element_at d bar) as [e|]; [|done]. intros [= <- <-]. right. by eexists.
  - intros [= <- <-]. by left.
Qed.

Lemma keep_viewed_result (d : dom) (t : Z) (els : list ref) :
  ∀ videos vs,
    mapM (new_Video d) els = Normal videos →
    Extractor.keep_viewed d t videos = Normal vs →
    element <$> vs = filter (λ r, is_viewed d t r) els ∧ Forall (kept d) vs.
Proof.
  induction els as [|r els IH]; intros videos vs Hmap Hkeep.
  - simpl in Hmap. injection Hmap as <-. simpl in Hkeep. by injection Hkeep as <-.
  - simpl in Hmap. destruct (new_Video d r) as [v|] eqn:Hnew; [|done].
    destruct (mapM (new_Video d) els) as [videos'|] eqn:Hels; [|done].
    simpl in Hmap. injection Hmap as <-. simpl in Hkeep.
    destruct (getViewed d v t) as [[v' seen]|] eqn:Hview; [|done].
    destruct (Extractor.keep_viewed d t videos') as [rest|] eqn:Hrest; [|done].
    simpl in Hkeep. injection Hkeep as <-.
    destruct (IH videos' rest eq_refl Hrest) as [Hels' Hkept].
    assert (is_viewed d t r = truthy seen) as Hr by (unfold is_viewed; by rewrite Hnew, Hview).
    rewrite filter_cons, Hr.
    unfold new_Video in Hnew. destruct (read_display d r) as [s|] eqn:Hs; [|done].
    injection Hnew as <-.
    apply getViewed_cases in Hview as [[-> ->]|(b & -> & ->)]; cbn [truthy].
    + by rewrite decide_False by (by intros []).
    + destruct b.
      * rewrite decide_True by done. rewrite fmap_cons. split; [by rewrite Hels'|].
        constructor; [by split_and!|done].
      * by rewrite decide_False by (by intros []).
Qed.

(** X18. What [Extractor.extract] returns: the videos of the elements that
    the subextractors found and that are viewed at the threshold, in the
    order they were found, one for each time the element was found; each
    has [viewed] set to [true], no id and no title yet, and holds the
    [display] its element has on the page. *)
Theorem extract_result funs (x : Extractor.t) (d : dom) (el : ref) (threshold : Z)
    (vs : list Video) :
  Extractor.extract funs x d el threshold = Normal vs →
  ∃ els, Extractor.elements_of funs x d el = Normal els
    ∧ element <$> vs = filter (λ r, is_viewed d threshold r) els
    ∧ Forall (kept d) vs.
Proof.
  unfold Extractor.extract.
  destruct (Extractor.elements_of funs x d el) as [els|]; [|done]. cbn [bind].
  destruct (mapM (new_Video d) els) as [videos|] eqn:Hmap; [|done]. cbn [bind].
  intros Hkeep. exists els. split; [done|]. by eapply keep_viewed_result.
Qed.

Lemma extract_result_witness :
  ∃ els, Extractor.elements_of builtin (Extractor.insert 3 Extractor.new) home_page body_ref
         = Normal els
    ∧ element <$> [set_viewed (VBoolean true) (video_of first_entry "block")]
      = filter (λ r, is_viewed home_page 50 r) els
    ∧ Forall (kept home_page) [set_viewed (VBoolean true) (video_of first_entry "block")].
Proof.
  apply (extract_result builtin (Extractor.insert 3 Extractor.new) home_page body_ref 50).
  reflexivity.
Defined.

Lemma elements_of_single funs (f : fnref) (d : dom) (el : ref) :
  Extractor.elements_of funs (Extractor.insert f Extractor.new) d el =
  let* own := funs f d el in Normal own.
Proof.
  unfold Extractor.elements_of. simpl. destruct (funs f d el) as [own|]; [|done].
  simpl. by rewrite List.app_nil_r.
Qed.

(** X19. An extraction is made subextractor by subextractor: with a function
    that is registered last, the result is what the registry gave without
    it followed by what the function gives alone. Nothing is merged: an
    element that two functions find is wrapped twice. *)
Theorem extract_distributes funs (f : fnref) (x : Extractor.t) (d : dom) (el : ref)
    (threshold : Z) :
  f ∉ Extractor.subextractors x →
  Extractor.extract funs (Extractor.insert f x) d el threshold =
  let* others := Extractor.extract funs x d el threshold in
  let* own := Extractor.extract funs (Extractor.insert f Extractor.new) d el threshold in
  Normal (others ++ own).
Proof.
  intros Hf. unfold Extractor.extract.
  rewrite elements_of_insert_fresh by done. rewrite elements_of_single.
  destruct (Extractor.elements_of funs x d el) as [others|]; cbn [bind]; [|done].
  destruct (funs f d el) as [own|]; cbn [bind].
  - rewrite mapM_app.
    destruct (mapM (new_Video d) others) as [vs1|]; cbn [bind]; [|done].
    destruct (mapM (new_Video d) own) as [vs2|]; cbn [bind].
    + by rewrite keep_viewed_app.
    + by destruct (Extractor.keep_viewed d threshold vs1).
  - by destruct (let* videos := mapM (new_Video d) others in _).
Qed.

Lemma extract_distributes_witness :
  Extractor.extract builtin (Extractor.insert 3 (Extractor.insert 5 Extractor.new))
    home_page body_ref 50 =
  let* others := Extractor.extract builtin (Extractor.insert 5 Extractor.new)
                   home_page body_ref 50 in
  let* own := Extractor.extract builtin (Extractor.insert 3 Extractor.new)
                home_page body_ref 50 in
  Normal (others ++ own).
Proof.
  apply (extract_distributes builtin 3 (Extractor.insert 5 Extractor.new)).
  intros H. by repeat (inversion H as [|? ? ? H']; clear H; rename H' into H).
Defined.

Lemma set_delete_add (f : fnref) (s : list fnref) :
  set_delete f (set_add f s) = set_delete f s.
Proof.
  unfold set_add. case_decide; [done|]. unfold set_delete.
  rewrite filter_app, filter_cons_False, filter_nil; [apply List.app_nil_r|].
  intros Hn. by apply Hn.
Qed.

(** X20. [remove] undoes [insert]: after it the function is not registered,
    the other functions are as before, in their order, and removing a
    function that was just inserted into a registry that did not hold it
    gives the registry, hence the extractions, back. *)
Theorem remove_insert funs (f : fnref) (x : Extractor.t) :
  (f ∉ Extractor.subextractors (Extractor.remove f x))
  ∧ (∀ g, g ≠ f →
       g ∈ Extractor.subextractors (Extractor.remove f x) ↔ g ∈ Extractor.subextractors x)
  ∧ Extractor.subextractors (Extractor.remove f x) `sublist_of` Extractor.subextractors x
  ∧ Extractor.remove f (Extractor.insert f x) = Extractor.remove f x
  ∧ (f ∉ Extractor.subextractors x →
     Extractor.remove f (Extractor.insert f x) = x
     ∧ ∀ d el threshold,
         Extractor.extract funs (Extractor.remove f (Extractor.insert f x)) d el threshold
         = Extractor.extract funs x d el threshold).
Proof.
  assert (Extractor.remove f (Extractor.insert f x) = Extractor.remove f x) as Hri.
  { unfold Extractor.remove, Extractor.insert. simpl. by rewrite set_delete_add. }
  split_and!; try done.
  - simpl. unfold set_delete. rewrite list_elem_of_filter. by intros [? _].
  - intros g Hg. simpl. unfold set_delete. rewrite list_elem_of_filter.
    split; [by intros [_ ?]|by intros ?].
  - apply sublist_filter.
  - intros Hf. assert (Extractor.remove f x = x) as Hrx.
    { destruct x as [s]. unfold Extractor.remove. simpl in *. by rewrite set_delete_absent. }
    rewrite Hri, Hrx. done.
Qed.

Lemma remove_insert_witness :
  Extractor.remove 3 (Extractor.insert 3 (Extractor.insert 5 Extractor.new))
  = Extractor.insert 5 Extractor.new
  ∧ ∀ d el threshold,
      Extractor.extract builtin
        (Extractor.remove 3 (Extractor.insert 3 (Extractor.insert 5 Extractor.new)))
        d el threshold
      = Extractor.extract builtin (Extractor.insert 5 Extractor.new) d el threshold.
Proof.
  destruct (remove_insert builtin 3 (Extractor.insert 5 Extractor.new))
    as (_ & _ & _ & _ & H).
  apply H. intros Hin.
  by repeat (inversion Hin as [|? ? ? H']; clear Hin; rename H' into Hin).
Defined.

(** ** The subextractors *)

Lemma extract_erase (d : dom) (el : ref) (sels : list compound) :
  extract (erase_dom d) el sels = extract d el sels.
Proof.
  unfold extract. f_equal. induction sels as [|c sels IH]; [done|].
  simpl. by rewrite querySelectorAll_erase, IH.
Qed.

Lemma builtin_erase (f : fnref) (d : dom) (el : ref) :
  builtin f (erase_dom d) el = builtin f d el.
Proof. unfold builtin. repeat case_match; apply extract_erase. Qed.

(** X22. The subextractors of the script do not look at [display]: on two
    pages that differ in [display] values at most they find the same
    elements, so an element that [hide] has hidden is found again by the
    next extraction. *)
Theorem subextractors_ignore_display (d d' : dom) (el : ref) :
  same_but_display d d' →
  (∀ f, builtin f d el = builtin f d' el)
  ∧ (∀ x, Extractor.elements_of builtin x d el = Extractor.elements_of builtin x d' el)
  ∧ (∀ v, hide d v = Normal d' →
       ∀ x, Extractor.elements_of builtin x d' el = Extractor.elements_of builtin x d el).
Proof.
  unfold same_but_display. intros Heq.
  assert (∀ f, builtin f d el = builtin f d' el) as Hf.
  { intros f. by rewrite <-(builtin_erase f d), <-(builtin_erase f d'), Heq. }
  assert (∀ x, Extractor.elements_of builtin x d el = Extractor.elements_of builtin x d' el) as Hx.
  { intros x. unfold Extractor.elements_of. f_equal.
    induction (Extractor.subextractors x) as [|g s IH]; [done|]. simpl. by rewrite Hf, IH. }
  split_and!; try done.
Qed.

Lemma subextractors_ignore_display_witness :
  Extractor.elements_of builtin (Extractor.insert 3 Extractor.new)
    (alter_dom (set_display "none") first_entry home_page) body_ref
  = Extractor.elements_of builtin (Extractor.insert 3 Extractor.new) home_page body_ref.
Proof.
  destruct (subextractors_ignore_display home_page
              (alter_dom (set_display "none") first_entry home_page) body_ref eq_refl)
    as (_ & _ & H).
  apply (H (video_of first_entry "block")). reflexivity.
Defined.

(** *** The elements of a subtree are pairwise distinct *)

Lemma forest_refs (r : ref) (ks : list node) :
  Forall (λ n, ∀ r, NoDup (fst <$> subtree r n) ∧ Forall (below r) (subtree r n)) ks →
  ∀ i, NoDup (fst <$> forest r i ks)
       ∧ Forall (λ x, ∃ p j, fst x = p ++ j :: r ∧ i ≤ j) (forest r i ks).
Proof.
  induction 1 as [|k ks Hk _ IH]; intros i; simpl.
  - split; constructor.
  - destruct (Hk (i :: r)) as [Hnd Hbelow], (IH (S i)) as [Hnd' Hbelow'].
    rewrite fmap_app. split.
    + apply NoDup_app. split_and!; [done| |done].
      intros r0 (x & -> & Hx)%list_elem_of_fmap (y & Heq & Hy)%list_elem_of_fmap.
      rewrite Forall_forall in Hbelow, Hbelow'.
      destruct (Hbelow x Hx) as [p Hp], (Hbelow' y Hy) as (p' & j & Hp' & Hj).
      assert (p ++ i :: r = p' ++ j :: r) as Heq' by (by rewrite <-Hp, <-Hp').
      clear Heq. rename Heq' into Heq.
      change (p ++ i :: r) with (p ++ [i] ++ r) in Heq.
      change (p' ++ j :: r) with (p' ++ [j] ++ r) in Heq.
      rewrite !(assoc (++)) in Heq. apply app_inv_tail in Heq.
      apply app_inj_tail in Heq as [_ ->]. lia.
    + apply Forall_app. split.
      * eapply Forall_impl; [done|]. intros x [p Hp]. exists p, i. by split.
      * eapply Forall_impl; [done|]. intros x (p & j & Hp & Hj). exists p, j. split; [done|lia].
Qed.

Lemma subtree_refs (n : node) :
  ∀ r, NoDup (fst <$> subtree r n) ∧ Forall (below r) (subtree r n).
Proof.
  induction n as [s|e kids IH] using node_ind; intros r.
  - split; constructor.
  - rewrite subtree_element. destruct (forest_refs r kids IH 0) as [Hnd Hbelow].
    rewrite Forall_forall in Hbelow. split.
    + rewrite fmap_cons. apply NoDup_cons. split; [|done].
      intros (x & Heq & Hx)%list_elem_of_fmap.
      destruct (Hbelow x Hx) as (p & j & Hp & _).
      assert (r = p ++ j :: r) as Heq' by (rewrite <-Hp; exact Heq).
      apply (f_equal length) in Heq'.
      rewrite length_app in Heq'. simpl in Heq'. lia.
    + constructor; [by exists []|]. apply Forall_forall. intros x Hx.
      destruct (Hbelow x Hx) as (p & j & Hp & _). exists (p ++ [j]).
      by rewrite <-(assoc (++)).
Qed.

Lemma descendants_refs (d : dom) (el : ref) (ds : list (ref * ElementData)) :
  descendants d el = Normal ds →
  NoDup (fst <$> ds) ∧ Forall (λ x, ∃ p, p ≠ [] ∧ fst x = p ++ el) ds.
Proof.
  unfold descendants. destruct (resolve d el) as [[|[e kids|]]|]; try done.
  intros [= <-].
  destruct (forest_refs el kids) with (i := 0) as [Hnd Hbelow].
  { apply Forall_forall. intros n _. apply subtree_refs. }
  split; [done|]. eapply Forall_impl; [done|].
  intros x (p & j & Hp & _). exists (p ++ [j]). split; [by destruct p|].
  by rewrite <-(assoc (++)).
Qed.

(** *** Counting *)

Lemma copies_app (r : ref) (l1 l2 : list ref) :
  copies r (l1 ++ l2) = copies r l1 + copies r l2.
Proof. unfold copies. by rewrite filter_app, length_app. Qed.

Lemma copies_absent (r : ref) (l : list ref) : r ∉ l → copies r l = 0.
Proof.
  intros Hr. unfold copies. induction l as [|r' l IH]; [done|].
  apply not_elem_of_cons in Hr as [Hne Hr].
  rewrite filter_cons_False by done. by apply IH.
Qed.

Lemma copies_filter (Q : ElementData → bool) (r : ref) (e : ElementData)
    (ds : list (ref * ElementData)) :
  NoDup (fst <$> ds) → (r, e) ∈ ds →
  copies r (fst <$> filter (λ x, Q (snd x)) ds) = if Q e then 1 else 0.
Proof.
  assert (∀ l : list (ref * ElementData),
            r ∉ fst <$> l → copies r (fst <$> filter (λ x, Q (snd x)) l) = 0) as Habsent.
  { intros l Hl. apply copies_absent. intros (x & Heq & Hx)%list_elem_of_fmap.
    apply list_elem_of_filter in Hx as [_ Hx]. apply Hl, list_elem_of_fmap. eauto. }
  induction ds as [|[r' e'] ds IH]; intros Hnd Hin.
  - by apply elem_of_nil in Hin.
  - rewrite fmap_cons in Hnd. apply NoDup_cons in Hnd as [Hr' Hnd]. simpl in Hr'.
    apply elem_of_cons in Hin as [[= <- <-]|Hin].
    + rewrite filter_cons. cbn [snd]. destruct (Q e).
      * rewrite decide_True by done. rewrite fmap_cons. unfold copies.
        rewrite filter_cons_True by done. cbn [length]. f_equal. by apply Habsent.
      * rewrite decide_False by (by intros []). by apply Habsent.
    + assert (r' ≠ r) as Hne.
      { intros ->. apply Hr', list_elem_of_fmap. by exists (r, e). }
      rewrite filter_cons. cbn [snd]. destruct (Q e').
      * rewrite decide_True by done. rewrite fmap_cons. unfold copies.
        rewrite filter_cons_False by done. by apply IH.
      * rewrite decide_False by (by intros []). by apply IH.
Qed.

Lemma extract_concat (d : dom) (el : ref) (sels : list compound)
    (ds : list (ref * ElementData)) :
  descendants d el = Normal ds →
  extract d el sels =
  Normal (concat ((λ c, fst <$> filter (λ x, matches_compound (snd x) c) ds) <$> sels)).
Proof.
  intros Hd. unfold extract.
  assert (mapM (λ c, querySelectorAll d el [Scope c]) sels =
          Normal ((λ c, fst <$> filter (λ x, matches_compound (snd x) c) ds) <$> sels)) as ->;
    [|done].
  induction sels as [|c sels IH]; [done|].
  simpl. rewrite IH. unfold querySelectorAll. rewrite Hd. simpl. do 3 f_equal.
  apply list_filter_iff. intros x. unfold matches_any, matches. simpl.
  by rewrite orb_false_r.
Qed.

(** X21. What a subextractor returns: only proper descendants of the element
    it is called on, each of which matches one of its selectors, and every
    descendant once for each selector it matches, so an element that two
    selectors of one subextractor match is returned twice. *)
Theorem extract_multiplicity (d : dom) (el : ref) (sels : list compound)
    (ds : list (ref * ElementData)) :
  descendants d el = Normal ds →
  ∃ rs, extract d el sels = Normal rs
    ∧ (∀ r e, (r, e) ∈ ds →
         copies r rs = length (filter (λ c, matches_compound e c) sels))
    ∧ (∀ r, r ∈ rs →
         ∃ e c p, element_at d r = Some e ∧ c ∈ sels ∧ matches_compound e c = true
           ∧ p ≠ [] ∧ r = p ++ el).
Proof.
  intros Hd. destruct (descendants_refs d el ds Hd) as [Hnd Hbelow].
  eexists. split; [by apply extract_concat|]. split.
  - intros r e Hin. induction sels as [|c sels IH]; [done|].
    rewrite fmap_cons. cbn [concat]. rewrite copies_app, IH, filter_cons.
    rewrite (copies_filter (λ e, matches_compound e c) r e ds Hnd Hin).
    by destruct (matches_compound e c).
  - intros r Hr. apply list_elem_of_In, in_concat in Hr as (l & Hl & Hr).
    apply list_elem_of_In in Hl, Hr.
    apply list_elem_of_fmap in Hl as (c & -> & Hc).
    apply list_elem_of_fmap in Hr as ([r' e] & -> & Hx).
    apply list_elem_of_filter in Hx as [Hm Hx]. simpl in *.
    rewrite Forall_forall in Hbelow. destruct (Hbelow _ Hx) as (p & Hp & Heq).
    exists e, c, p. split_and!; try done.
    + by apply (descendants_sound d el ds (r', e)).
    + by apply Is_true_true.
Qed.

Lemma extract_multiplicity_witness :
  let both := Element (tag "ytd-grid-video-renderer" ""
                         ["style-scope"; "yt-horizontal-list-renderer"; "ytd-grid-renderer"]
                         [] "" "") [] in
  ∃ rs, extractGridVideos (page_of [both]) body_ref = Normal rs
    ∧ copies first_entry rs = 2.
Proof.
  intros both.
  destruct (extract_multiplicity (page_of [both]) body_ref
              [renderer "ytd-grid-video-renderer" ["style-scope"; "yt-horizontal-list-renderer"] [] [];
               renderer "ytd-grid-video-renderer" ["style-scope"; "ytd-grid-renderer"] [] []]
              _ eq_refl) as (rs & Hrs & Hcount & _).
  exists rs. split; [exact Hrs|].
  rewrite (Hcount first_entry
             (tag "ytd-grid-video-renderer" ""
                ["style-scope"; "yt-horizontal-list-renderer"; "ytd-grid-renderer"] [] "" "")).
  - reflexivity.
  - apply list_elem_of_here.
Defined.

(** ** Inserting twice, on the extraction *)

Lemma new_Video_returns (d : dom) (r : ref) :
  is_Some (element_at d r) → ∃ v, new_Video d r = Normal v ∧ element v = r.
Proof.
  intros [e He]. unfold new_Video, read_display. rewrite He. by eexists.
Qed.

Lemma getViewed_returns (d : dom) (v : Video) (t : Z) :
  is_Some (element_at d (element v)) →
  ∃ v' seen, getViewed d v t = Normal (v', seen) ∧ element v' = element v.
Proof.
  intros Hel. unfold getViewed.
  destruct (querySelector_returns d (element v) bar_selectors Hel) as [[bar|] Hq];
    rewrite Hq; cbn [bind].
  - destruct (querySelector_sound _ _ _ _ Hq) as (e & He & _). rewrite He. by eexists _, _.
  - by eexists _, _.
Qed.

Lemma mapM_new_Video_returns (d : dom) (els : list ref) :
  Forall (λ r, is_Some (element_at d r)) els →
  ∃ videos, mapM (new_Video d) els = Normal videos
    ∧ Forall (λ v, is_Some (element_at d (element v))) videos.
Proof.
  induction 1 as [|r els Hr _ (videos & Hmap & Hvideos)].
  - by exists [].
  - destruct (new_Video_returns d r Hr) as (v & Hv & Hel).
    exists (v :: videos). simpl. rewrite Hv, Hmap. split; [done|].
    constructor; [by rewrite Hel|done].
Qed.

Lemma keep_viewed_returns (d : dom) (t : Z) (videos : list Video) :
  Forall (λ v, is_Some (element_at d (element v))) videos →
  returns (Extractor.keep_viewed d t videos).
Proof.
  induction 1 as [|v videos Hv _ [rest Hrest]].
  - by eexists.
  - destruct (getViewed_returns d v t Hv) as (v' & seen & Hview & _).
    simpl. rewrite Hview, Hrest. by eexists.
Qed.

(** On a page where what the registered functions find are elements, an
    extraction returns, and it returns the viewed ones among what was
    found. *)
Lemma extract_returns funs (x : Extractor.t) (d : dom) (el : ref) (t : Z) (els : list ref) :
  Extractor.elements_of funs x d el = Normal els →
  Forall (λ r, is_Some (element_at d r)) els →
  ∃ vs, Extractor.extract funs x d el t = Normal vs
    ∧ element <$> vs = filter (λ r, is_viewed d t r) els
    ∧ Forall (kept d) vs.
Proof.
  intros Hels Hall. unfold Extractor.extract. rewrite Hels. cbn [bind].
  destruct (mapM_new_Video_returns d els Hall) as (videos & Hmap & Hvideos).
  rewrite Hmap. cbn [bind].
  destruct (keep_viewed_returns d t videos Hvideos) as [vs Hvs].
  exists vs. split; [done|]. by eapply keep_viewed_result.
Qed.

(** C9. Inserting a function a second time leaves the registry, and with it
    every extraction, as it was after the first time; the function is in
    the registry once, and what it finds is appended once to what the
    others find. On a page where what is found are elements, [extract]
    after the two insertions returns the viewed elements among what the
    registry with the function finds, and for a function that was not
    registered before these are the viewed ones the others find followed,
    once, by the viewed ones the function finds. Removing a function that
    is not registered changes nothing. *)
Theorem insert_twice funs (f : fnref) (x : Extractor.t) :
  Extractor.insert f (Extractor.insert f x) = Extractor.insert f x
  ∧ (∀ d el threshold,
       Extractor.extract funs (Extractor.insert f (Extractor.insert f x)) d el threshold
       = Extractor.extract funs (Extractor.insert f x) d el threshold)
  ∧ (reachable x → occurrences f (Extractor.insert f (Extractor.insert f x)) = 1)
  ∧ (f ∉ Extractor.subextractors x →
       ∀ d el,
         Extractor.elements_of funs (Extractor.insert f (Extractor.insert f x)) d el =
         let* others := Extractor.elements_of funs x d el in
         let* own := funs f d el in
         Normal (others ++ own))
  ∧ (f ∉ Extractor.subextractors x → Extractor.remove f x = x)
  ∧ (∀ d el threshold els,
       Extractor.elements_of funs (Extractor.insert f x) d el = Normal els →
       Forall (λ r, is_Some (element_at d r)) els →
       ∃ vs, Extractor.extract funs (Extractor.insert f (Extractor.insert f x)) d el threshold
             = Normal vs
         ∧ element <$> vs = filter (λ r, is_viewed d threshold r) els
         ∧ Forall (kept d) vs)
  ∧ (f ∉ Extractor.subextractors x →
       ∀ d el threshold others own,
         Extractor.elements_of funs x d el = Normal others →
         funs f d el = Normal own →
         Forall (λ r, is_Some (element_at d r)) (others ++ own) →
         ∃ vs, Extractor.extract funs (Extractor.insert f (Extractor.insert f x)) d el threshold
               = Normal vs
           ∧ element <$> vs = filter (λ r, is_viewed d threshold r) others
                               ++ filter (λ r, is_viewed d threshold r) own
           ∧ Forall (kept d) vs).
Proof.
  assert (Extractor.insert f (Extractor.insert f x) = Extractor.insert f x) as Htwice.
  { unfold Extractor.insert. simpl. by rewrite set_add_add. }
  rewrite Htwice. split_and!; try done.
  - intros Hx. apply occurrences_member.
    + by apply set_add_NoDup, reachable_NoDup.
    + apply set_add_elem_of.
  - intros Hf d el. by apply elements_of_insert_fresh.
  - intros Hf. destruct x as [s]. unfold Extractor.remove. simpl in *.
    by rewrite set_delete_absent.
  - intros d el threshold els Hels Hall. by apply extract_returns.
  - intros Hf d el threshold others own Hothers Hown Hall.
    rewrite <-filter_app. apply extract_returns; [|done].
    rewrite elements_of_insert_fresh by done. by rewrite Hothers, Hown.
Qed.

Lemma insert_twice_witness :
  occurrences 3 (Extractor.insert 3 (Extractor.insert 3 (Extractor.insert 5 Extractor.new))) = 1
  ∧ Extractor.elements_of builtin
      (Extractor.insert 3 (Extractor.insert 3 (Extractor.insert 5 Extractor.new)))
      home_page body_ref
    = (let* others :=
         Extractor.elements_of builtin (Extractor.insert 5 Extractor.new) home_page body_ref in
       let* own := builtin 3 home_page body_ref in
       Normal (others ++ own))
  ∧ Extractor.remove 3 (Extractor.insert 5 Extractor.new) = Extractor.insert 5 Extractor.new
  ∧ (∃ vs, Extractor.extract builtin
             (Extractor.insert 3 (Extractor.insert 3 (Extractor.insert 5 Extractor.new)))
             home_page body_ref 50 = Normal vs
       ∧ element <$> vs = filter (λ r, is_viewed home_page 50 r) [first_entry; second_entry]
       ∧ Forall (kept home_page) vs)
  ∧ (∃ vs, Extractor.extract builtin
             (Extractor.insert 3 (Extractor.insert 3 (Extractor.insert 5 Extractor.new)))
             home_page body_ref 50 = Normal vs
       ∧ element <$> vs = filter (λ r, is_viewed home_page 50 r) []
                           ++ filter (λ r, is_viewed home_page 50 r) [first_entry; second_entry]
       ∧ Forall (kept home_page) vs).
Proof.
  destruct (insert_twice builtin 3 (Extractor.insert 5 Extractor.new))
    as (_ & _ & Honce & Hfound & Hremove & Hall & Hfresh_extract).
  assert (3 ∉ Extractor.subextractors (Extractor.insert 5 Extractor.new)) as Hfresh.
  { vm_compute. intros H. by repeat (inversion H as [|? ? ? H']; clear H; rename H' into H). }
  assert (Forall (λ r, is_Some (element_at home_page r)) [first_entry; second_entry]) as Hels.
  { repeat constructor; by eexists. }
  split_and!.
  - apply Honce. apply reachable_insert, reachable_new.
  - apply Hfound. exact Hfresh.
  - apply Hremove. exact Hfresh.
  - apply Hall; [reflexivity|exact Hels].
  - apply Hfresh_extract; [exact Hfresh|reflexivity|reflexivity|exact Hels].
Defined.

(** C10 (for every wrapped element) fails on an element that is attached to
    no document: [deriveURL] returns [undefined], while [derivePath], and
    with it [fetchID], raises a [TypeError] where it should return a path. *)
Lemma derivePath_throws_off_document :
  let d := Detached (lockup "" "/shorts/xyz" "/shorts/xyz" []) in
  let v := video_of [] "" in
  new_Video d [] = Normal v
  ∧ deriveURL d v = Normal None
  ∧ derivePath d v = TypeError
  ∧ fetchID d v = TypeError
  ∧ ¬ (∃ path, derivePath d v = Normal path)
  ∧ ¬ ((∃ v', fetchID d v = Normal (v', VUndefined)) ↔ deriveURL d v = Normal None).
Proof.
  intros d v. split_and!; try reflexivity.
  - by intros [path Hpath].
  - intros [_ Hback]. by destruct (Hback eq_refl) as [v' Hv'].
Qed.
